(** * Bandit selectors of RL_An_Introduction_2018 (chapters 2.7 and 2.8)

    Shallow embedding of [ucb_bandit], [simple_bandit], [argmax_rand]
    (0207_UCB_Bandit.ipynb) and of [gradient_bandit], [softmax]
    (0208_Gradient_Bandit.ipynb).

    Numbers: numpy's float64 values are read as real numbers ([R]); rounding
    is not part of the model.  Arrays are lists.  Python exceptions are the
    left summand of the result.  The process-wide random generator and the
    log of calls to [env.step] form the [world] threaded through every
    operation.

    Random draws: the tape of the [world] lists the uniform variates that
    the draws of the selectors see, one per draw.  What is modelled of a
    draw is its distribution.  How much of numpy's stream a draw consumes
    (nothing for a choice among one value, masked words for an integer) and
    the draws that an environment makes from the same generator are not
    modelled, so a position on the tape is not a position in numpy's
    stream. *)

From Stdlib Require Import Reals Lra Lia List ZArith Bool Arith.
Import ListNotations.
Open Scope R_scope.

(** ** Exceptions, world and the monad of the embedding *)

Inductive exn : Type := ValueError | IndexError.

(** A variate of [np.random.random_sample]: a real of the half-open unit
    interval. *)
Record unit_interval : Type := { uval :> R; uval_range : 0 <= uval < 1 }.

(** [rng w n] is the variate that the n-th draw of a selector from now on
    will see; [calls w] lists the actions passed to [env.step] so far,
    oldest first. *)
Record world : Type := { rng : nat -> unit_interval; calls : list nat }.

Definition M (A : Type) : Type := world -> (exn + A) * world.

Definition ret {A} (a : A) : M A := fun w => (inr a, w).

Definition raise {A} (e : exn) : M A := fun w => (inl e, w).

Definition lift {A} (r : exn + A) : M A := fun w => (r, w).

Definition bind {A B} (m : M A) (f : A -> M B) : M B :=
  fun w => match m w with
           | (inl e, w') => (inl e, w')
           | (inr a, w') => f a w'
           end.

Notation "x <- m ;; k" := (bind m (fun x => k))
  (at level 61, m at next level, right associativity).

(** [for x in xs: s = body(x, s)] *)
Fixpoint for_each {X S : Type} (xs : list X) (body : X -> S -> M S) (s : S)
  : M S :=
  match xs with
  | [] => ret s
  | x :: xs' => s' <- body x s ;; for_each xs' body s'
  end.

(** ** numpy and Python primitives *)

(** [range(lo, hi)] for [0 <= lo]; empty when [hi <= lo]. *)
Definition py_range (lo hi : Z) : list nat :=
  seq (Z.to_nat lo) (Z.to_nat (hi - lo)).

(** [np.zeros(n)]: negative dimensions are refused. *)
Definition np_zeros (n : Z) : exn + list R :=
  if (n <? 0)%Z then inl ValueError else inr (repeat 0 (Z.to_nat n)).

(** [x.max()], [np.max(x)]: refused on an empty array. *)
Definition np_max (x : list R) : exn + R :=
  match x with
  | [] => inl ValueError
  | a :: l => inr (fold_left Rmax l a)
  end.

(** [np.sum(x)]; over the reals the order of summation is immaterial. *)
Definition np_sum (x : list R) : R := fold_right Rplus 0 x.

(** [x[i]] for a non-negative index. *)
Definition getitem (x : list R) (i : nat) : exn + R :=
  match nth_error x i with
  | Some v => inr v
  | None => inl IndexError
  end.

(** The array [x] with [v] at position [i]; [x] itself when [i] is out of
    range (a case [setitem] turns into [IndexError]). *)
Fixpoint upd (x : list R) (i : nat) (v : R) : list R :=
  match x, i with
  | [], _ => []
  | _ :: l, O => v :: l
  | a :: l, S j => a :: upd l j v
  end.

(** [x[i] = v] for a non-negative index. *)
Definition setitem (x : list R) (i : nat) (v : R) : exn + list R :=
  if (i <? length x)%nat then inr (upd x i v) else inl IndexError.

(** Element-wise binary operation on two arrays of the same length. *)
Definition zip_with (f : R -> R -> R) (a b : list R) : list R :=
  map (fun p => f (fst p) (snd p)) (combine a b).

(** [np.flatnonzero(arr == m)]: the positions holding [m], ascending. *)
Fixpoint flatnonzero_eq (arr : list R) (m : R) (i : nat) : list nat :=
  match arr with
  | [] => []
  | a :: l => if Req_dec_T a m then i :: flatnonzero_eq l m (S i)
              else flatnonzero_eq l m (S i)
  end.

(** ** The random generator *)

(** The world once the generator has yielded its next variate. *)
Definition advance (w : world) : world :=
  {| rng := fun n => rng w (S n); calls := calls w |}.

(** [np.random.random_sample()] and [np.random.rand()]: consume one
    variate. *)
Definition random_sample : M R := fun w => (inr (uval (rng w O)), advance w).

(** The cell of [x] among [j, j+1, ..., j+n]: the least [i] of them with
    [x < i + 1], or the last one. *)
Fixpoint bucket_from (x : R) (j n : nat) : nat :=
  match n with
  | O => j
  | S n' => if Rlt_dec x (INR j + 1) then j else bucket_from x (S j) n'
  end.

(** The integer part of [u * n] for [u] in the unit interval: a value of
    [0 .. n-1], each on a sub-interval of length [1/n]. *)
Definition bucket (u : R) (n : nat) : nat := bucket_from (u * INR n) 0 (n - 1).

(** [np.random.randint(n)]: refused when [n <= 0]; otherwise uniform on
    [0 .. n-1], as the cell of one variate of the tape. *)
Definition randint (n : Z) : M nat :=
  if (n <=? 0)%Z then raise ValueError
  else u <- random_sample ;; ret (bucket u (Z.to_nat n)).

(** [np.random.choice(a)] without weights: refused on an empty array,
    otherwise the element at a uniformly drawn position (one variate of the
    tape, also when there is a single element). *)
Definition random_choice (a : list nat) : M nat :=
  match a with
  | [] => raise ValueError
  | _ => i <- randint (Z.of_nat (length a)) ;; ret (nth i a O)
  end.

(** The running sums of [p] on top of [acc]. *)
Fixpoint cumsum_from (acc : R) (p : list R) : list R :=
  match p with
  | [] => []
  | x :: l => (acc + x) :: cumsum_from (acc + x) l
  end.

(** [p.cumsum()] *)
Definition cumsum (p : list R) : list R := cumsum_from 0 p.

(** [cdf.searchsorted(u, side='right')] on an ascending array: the first
    position whose entry exceeds [u], the length when there is none. *)
Fixpoint searchsorted_right (cdf : list R) (u : R) : nat :=
  match cdf with
  | [] => O
  | c :: l => if Rlt_dec u c then O else S (searchsorted_right l u)
  end.

(** The tolerance of [np.random.choice] on the sum of the weights:
    [sqrt(np.finfo(np.float64).eps)]. *)
Definition choice_atol : R := / 2 ^ 26.

(** The negation of [np.logical_or.reduce(p < 0)]. *)
Definition all_nonneg (p : list R) : bool :=
  forallb (fun x => if Rle_dec 0 x then true else false) p.

(** [np.random.choice(a, p=p)]: the checks on [a] and [p], then inversion
    of the normalised cumulative sums at one variate. *)
Definition random_choice_p (a : list nat) (p : list R) : M nat :=
  if (length a =? 0)%nat then raise ValueError
  else if negb (length p =? length a)%nat then raise ValueError
  else if negb (all_nonneg p) then raise ValueError
  else if Rlt_dec choice_atol (Rabs (np_sum p - 1)) then raise ValueError
  else
    let cdf := cumsum p in
    let cdf := map (fun x => x / last cdf 0) cdf in
    u <- random_sample ;;
    match nth_error a (searchsorted_right cdf u) with
    | Some v => ret v
    | None => raise IndexError
    end.

(** ** The environment *)

(** The collaborator of the selectors: [size] actions, and [step].  The
    reward of a call is a function of the number of earlier calls and of the
    action, which covers every sequence of rewards a run can observe. *)
Record BanditEnv : Type := { size : Z; reward : nat -> nat -> R }.

(** The number of actions, as the length of the arrays. *)
Definition arms (env : BanditEnv) : nat := Z.to_nat (size env).

(** [env.step(action)]: the reward of this call, and the call logged.  The
    randomness of the environment is in [reward]; the tape is left as it
    is. *)
Definition step (env : BanditEnv) (action : nat) : M R :=
  fun w => (inr (reward env (length (calls w)) action),
            {| rng := rng w; calls := calls w ++ [action] |}).

(** ** 0207_UCB_Bandit.ipynb *)

Module UCB.

(** [argmax_rand(arr)], lines 72-74:
    [np.random.choice(np.flatnonzero(arr == arr.max()))]. *)
Definition argmax_rand (arr : list R) : M nat :=
  m <- lift (np_max arr) ;;
  random_choice (flatnonzero_eq arr m 0).

Record bandit_state : Type :=
  { Q : list R; N : list R; hist_A : list nat; hist_R : list R }.

(** The tail shared by the three loop bodies of the notebook (lines 40-45,
    49-54 and 165-170):
    [R = env.step(A); N[A] += 1; Q[A] += (1/N[A]) * (R - Q[A]);
     hist_A.append(A); hist_R.append(R)].
    The division uses the count already incremented. *)
Definition observe (env : BanditEnv) (A : nat) (st : bandit_state)
  : M bandit_state :=
  r <- step env A ;;
  n <- lift (getitem (N st) A) ;;
  N' <- lift (setitem (N st) A (n + 1)) ;;
  n' <- lift (getitem N' A) ;;
  q <- lift (getitem (Q st) A) ;;
  Q' <- lift (setitem (Q st) A (q + (1 / n') * (r - q))) ;;
  ret {| Q := Q'; N := N';
         hist_A := hist_A st ++ [A]; hist_R := hist_R st ++ [r] |}.

(** [Q + c * np.sqrt(np.log(t) / N)], line 48; both arrays have [env.size]
    entries.  [ln] and the division are those of the reals: they agree with
    numpy wherever [t >= 1] and the counts are positive, which holds at
    every evaluation of a run (see [ucb_bound_selection]). *)
Definition ucb_scores (c : R) (t : nat) (Qs Ns : list R) : list R :=
  zip_with (fun q n => q + c * sqrt (ln (INR t) / n)) Qs Ns.

(** The body of [for A in range(env.size)], lines 39-45. *)
Definition warmup_body (env : BanditEnv) (A : nat) (st : bandit_state)
  : M bandit_state :=
  observe env A st.

(** The body of [for t in range(env.size, nb)], lines 47-54. *)
Definition bound_body (env : BanditEnv) (c : R) (t : nat) (st : bandit_state)
  : M bandit_state :=
  A <- argmax_rand (ucb_scores c t (Q st) (N st)) ;;
  observe env A st.

(** The allocations that open [ucb_bandit] and [simple_bandit]
    (lines 33-36 and 158-161). *)
Definition init_state (env : BanditEnv) : M bandit_state :=
  Q0 <- lift (np_zeros (size env)) ;;
  N0 <- lift (np_zeros (size env)) ;;
  ret {| Q := Q0; N := N0; hist_A := []; hist_R := [] |}.

(** The two loops of [ucb_bandit] over given iteration lists. *)
Definition ucb_loops (env : BanditEnv) (c : R) (ws bs : list nat)
  : M bandit_state :=
  st0 <- init_state env ;;
  st1 <- for_each ws (warmup_body env) st0 ;;
  for_each bs (bound_body env c) st1.

(** The state of [ucb_bandit] after its first [t] loop iterations (warm-up
    iterations first). *)
Definition ucb_after (env : BanditEnv) (c : R) (t : nat) : M bandit_state :=
  ucb_loops env c (firstn t (py_range 0 (size env)))
            (seq (Z.to_nat (size env)) (t - Z.to_nat (size env))).

(** The whole run of the two loops of [ucb_bandit(env, nb, c)]; the
    warm-up loop ranges over [range(env.size)] whatever [nb] is. *)
Definition ucb_run (env : BanditEnv) (nb : Z) (c : R) : M bandit_state :=
  ucb_loops env c (py_range 0 (size env)) (py_range (size env) nb).

(** [ucb_bandit(env, nb, c)], lines 32-56: the run, then
    [return Q, np.array(hist_A), np.array(hist_R)]. *)
Definition ucb_bandit (env : BanditEnv) (nb : Z) (c : R)
  : M (list R * list nat * list R) :=
  st <- ucb_run env nb c ;;
  ret (Q st, hist_A st, hist_R st).

(** The body of the loop of [simple_bandit], lines 164-170; the variate of
    [np.random.rand()] is drawn before either branch. *)
Definition simple_body (env : BanditEnv) (eps : R) (_ : nat)
  (st : bandit_state) : M bandit_state :=
  u <- random_sample ;;
  A <- (if Rlt_dec eps u then argmax_rand (Q st) else randint (size env)) ;;
  observe env A st.

(** The loop of [simple_bandit] over a given iteration list. *)
Definition simple_loop (env : BanditEnv) (eps : R) (its : list nat)
  : M bandit_state :=
  st0 <- init_state env ;;
  for_each its (simple_body env eps) st0.

(** The state of [simple_bandit] after [t] loop iterations. *)
Definition simple_after (env : BanditEnv) (eps : R) (t : nat)
  : M bandit_state :=
  simple_loop env eps (seq 0 t).

(** The whole run of the loop, with the count array kept. *)
Definition simple_run (env : BanditEnv) (nb : Z) (eps : R) : M bandit_state :=
  simple_loop env eps (py_range 0 nb).

(** [simple_bandit(env, nb, eps)], lines 157-172. *)
Definition simple_bandit (env : BanditEnv) (nb : Z) (eps : R)
  : M (list R * list nat * list R) :=
  st <- simple_run env nb eps ;;
  ret (Q st, hist_A st, hist_R st).

End UCB.

(** ** 0208_Gradient_Bandit.ipynb *)

Module Gradient.

(** [ex = np.exp(x - m)] for [m = np.max(x)], line 76. *)
Definition softmax_exps (x : list R) (m : R) : list R :=
  map (fun v => exp (v - m)) x.

(** [softmax(x)], lines 74-77:
    [ex = np.exp(x - np.max(x)); return ex / np.sum(ex)]. *)
Definition softmax (x : list R) : exn + list R :=
  match np_max x with
  | inl e => inl e
  | inr m => let ex := softmax_exps x m in
             inr (map (fun e => e / np_sum ex) ex)
  end.

Record gradient_state : Type :=
  { H : list R; R_ : R; N_ : R; hist_A : list nat; hist_R : list R }.

(** The body of the loop of [gradient_bandit], lines 43-56.  [H_new] is
    computed from [H] and [pi] as a whole array, then its entry [A] is
    overwritten; the baseline is updated afterwards, with the counter
    already incremented. *)
Definition gradient_body (env : BanditEnv) (alpha : R) (baseline : bool)
  (_ : nat) (st : gradient_state) : M gradient_state :=
  pi <- lift (softmax (H st)) ;;
  A <- random_choice_p (py_range 0 (size env)) pi ;;
  r <- step env A ;;
  let H_new := zip_with (fun h p => h - alpha * (r - R_ st) * p) (H st) pi in
  hA <- lift (getitem (H st) A) ;;
  piA <- lift (getitem pi A) ;;
  H_new <- lift (setitem H_new A (hA + alpha * (r - R_ st) * (1 - piA))) ;;
  let N1 := if baseline then N_ st + 1 else N_ st in
  let R1 := if baseline then R_ st + 1 / N1 * (r - R_ st) else R_ st in
  ret {| H := H_new; R_ := R1; N_ := N1;
         hist_A := hist_A st ++ [A]; hist_R := hist_R st ++ [r] |}.

(** The allocation and the initial values that open [gradient_bandit]
    (lines 37-40). *)
Definition init_state (env : BanditEnv) : M gradient_state :=
  H0 <- lift (np_zeros (size env)) ;;
  ret {| H := H0; R_ := 0; N_ := 0; hist_A := []; hist_R := [] |}.

(** The loop of [gradient_bandit] over a given iteration list. *)
Definition gradient_loop (env : BanditEnv) (alpha : R) (baseline : bool)
  (its : list nat) : M gradient_state :=
  st0 <- init_state env ;;
  for_each its (gradient_body env alpha baseline) st0.

(** The state of [gradient_bandit] after [t] loop iterations. *)
Definition gradient_after (env : BanditEnv) (alpha : R) (baseline : bool)
  (t : nat) : M gradient_state :=
  gradient_loop env alpha baseline (seq 0 t).

(** The whole run of the loop, with the baseline kept. *)
Definition gradient_run (env : BanditEnv) (nb : Z) (alpha : R)
  (baseline : bool) : M gradient_state :=
  gradient_loop env alpha baseline (py_range 0 nb).

(** [gradient_bandit(env, nb, alpha, baseline)], lines 36-58. *)
Definition gradient_bandit (env : BanditEnv) (nb : Z) (alpha : R)
  (baseline : bool) : M (list R * list nat * list R) :=
  st <- gradient_run env nb alpha baseline ;;
  ret (H st, hist_A st, hist_R st).

End Gradient.

(** ** Arithmetic means over the histories (specification side) *)

(** The rewards recorded for action [a], oldest first. *)
Fixpoint rewards_of (a : nat) (hA : list nat) (hR : list R) : list R :=
  match hA, hR with
  | A :: hA', r :: hR' =>
      if Nat.eqb A a then r :: rewards_of a hA' hR' else rewards_of a hA' hR'
  | _, _ => []
  end.

(** The arithmetic mean of a list of rewards. *)
Definition mean (l : list R) : R := np_sum l / INR (length l).

(** Position [i] of [arr] holds a maximum of [arr]. *)
Definition maximal (arr : list R) (i : nat) : Prop :=
  (i < length arr)%nat
  /\ forall j, (j < length arr)%nat -> nth j arr 0 <= nth i arr 0.

(** The invariant of the three loops, [t] iterations after the start in
    world [w0] with [k] actions. *)
Record loop_inv (k : nat) (w0 : world) (t : nat) (st : UCB.bandit_state)
  (w : world) : Prop :=
  { inv_lenQ : length (UCB.Q st) = k;
    inv_lenN : length (UCB.N st) = k;
    inv_lenA : length (UCB.hist_A st) = t;
    inv_lenR : length (UCB.hist_R st) = t;
    inv_calls : calls w = calls w0 ++ UCB.hist_A st;
    inv_sumN : np_sum (UCB.N st) = INR t;
    inv_range : Forall (fun a => (a < k)%nat) (UCB.hist_A st);
    inv_count : forall a, (a < k)%nat ->
      nth a (UCB.N st) 0
      = INR (length (rewards_of a (UCB.hist_A st) (UCB.hist_R st)));
    inv_mean : forall a, (a < k)%nat ->
      nth a (UCB.Q st) 0
      = mean (rewards_of a (UCB.hist_A st) (UCB.hist_R st)) }.

(** The invariant of the loop of [gradient_bandit], [t] iterations after
    the start in world [w0] with [k] actions. *)
Record grad_inv (baseline : bool) (k : nat) (w0 : world) (t : nat)
  (st : Gradient.gradient_state) (w : world) : Prop :=
  { ginv_lenH : length (Gradient.H st) = k;
    ginv_lenA : length (Gradient.hist_A st) = t;
    ginv_lenR : length (Gradient.hist_R st) = t;
    ginv_calls : calls w = calls w0 ++ Gradient.hist_A st;
    ginv_sumH : np_sum (Gradient.H st) = 0;
    ginv_N : Gradient.N_ st = if baseline then INR t else 0;
    ginv_R : Gradient.R_ st
             = if baseline then mean (Gradient.hist_R st) else 0 }.


(** The computation [m], started in world [w], raises an exception without
    having called [env.step]. *)
Definition fails_before_any_step {A : Type} (m : M A) (w : world) : Prop :=
  exists e w', m w = (inl e, w') /\ calls w' = calls w.

(** The rewards [env.step] returns when called with the actions [hA] in
    this order, the first of these calls being the one numbered [n]. *)
Fixpoint env_rewards (env : BanditEnv) (n : nat) (hA : list nat) : list R :=
  match hA with
  | [] => []
  | a :: l => reward env n a :: env_rewards env (S n) l
  end.

(** What a run has done to the outside: [env.step] was called once per
    recorded action, in order and always in range, and the recorded rewards
    are the values it returned. *)
Definition faithful_trace (env : BanditEnv) (w : world)
  (hA : list nat) (hR : list R) (w' : world) : Prop :=
  calls w' = calls w ++ hA
  /\ Forall (fun a => (a < arms env)%nat) hA
  /\ hR = env_rewards env (length (calls w)) hA.

(** ** Concrete inputs *)

Definition zero_variate : unit_interval :=
  {| uval := 0; uval_range := conj (Rle_refl 0) Rlt_0_1 |}.

(** A generator that always yields 0 and an environment not called yet. *)
Definition world0 : world := {| rng := fun _ => zero_variate; calls := [] |}.

(** Two actions: action 0 always pays 1, action 1 always pays 0. *)
Definition stub_env : BanditEnv :=
  {| size := 2; reward := fun _ a => if Nat.eqb a 0 then 1 else 0 |}.

(** No action at all. *)
Definition empty_env : BanditEnv := {| size := 0; reward := fun _ _ => 0 |}.

(** * Properties *)

(** ** The monad *)

Lemma bind_ok {A B} (m : M A) (f : A -> M B) w a w1 :
  m w = (inr a, w1) -> bind m f w = f a w1.
Proof. intros E. unfold bind. now rewrite E. Qed.

Lemma bind_err {A B} (m : M A) (f : A -> M B) w e w1 :
  m w = (inl e, w1) -> bind m f w = (inl e, w1).
Proof. intros E. unfold bind. now rewrite E. Qed.

Lemma bind_assoc {A B C} (m : M A) (f : A -> M B) (g : B -> M C) w :
  bind (bind m f) g w = bind m (fun a => bind (f a) g) w.
Proof.
  unfold bind. destruct (m w) as [[e|a] w1]; reflexivity.
Qed.

Lemma bind_ext {A B} (m : M A) (f g : A -> M B) w :
  (forall a w1, f a w1 = g a w1) -> bind m f w = bind m g w.
Proof.
  intros E. unfold bind. destruct (m w) as [[e|a] w1]; [reflexivity | apply E].
Qed.

Lemma for_each_one {X S} (x : X) (body : X -> S -> M S) s w :
  for_each [x] body s w = body x s w.
Proof.
  simpl. unfold bind, ret. destruct (body x s w) as [[e|s1] w1]; reflexivity.
Qed.

Lemma for_each_app {X S} (xs ys : list X) (body : X -> S -> M S) s w :
  for_each (xs ++ ys) body s w
  = bind (for_each xs body s) (for_each ys body) w.
Proof.
  revert s w. induction xs as [|x xs IH]; intros s w; simpl.
  - reflexivity.
  - unfold bind. destruct (body x s w) as [[e|s1] w1].
    + reflexivity.
    + rewrite IH. reflexivity.
Qed.


(** ** Arrays *)

Lemma np_sum_app (l1 l2 : list R) : np_sum (l1 ++ l2) = np_sum l1 + np_sum l2.
Proof.
  induction l1 as [|a l1 IH]; simpl.
  - lra.
  - unfold np_sum in *. simpl. rewrite IH. lra.
Qed.

Lemma np_sum_repeat_0 (n : nat) : np_sum (repeat 0 n) = 0.
Proof. induction n as [|n IH]; simpl; [reflexivity|]. unfold np_sum in *. simpl. rewrite IH. lra. Qed.

Lemma upd_length (x : list R) i v : length (upd x i v) = length x.
Proof.
  revert i. induction x as [|a x IH]; intros [|i]; simpl; auto.
Qed.

Lemma nth_upd_same (x : list R) i v d :
  (i < length x)%nat -> nth i (upd x i v) d = v.
Proof.
  revert i. induction x as [|a x IH]; intros [|i] Hi; simpl in *; try lia.
  - reflexivity.
  - apply IH. lia.
Qed.

Lemma nth_upd_other (x : list R) i j v d :
  i <> j -> nth j (upd x i v) d = nth j x d.
Proof.
  revert i j. induction x as [|a x IH]; intros [|i] [|j] Hij; simpl; auto.
  - congruence.
Qed.

Lemma np_sum_upd (x : list R) i v :
  (i < length x)%nat -> np_sum (upd x i v) = np_sum x - nth i x 0 + v.
Proof.
  revert i. induction x as [|a x IH]; intros [|i] Hi; simpl in *; try lia.
  - unfold np_sum. simpl. lra.
  - unfold np_sum in *. simpl. rewrite IH by lia. lra.
Qed.

Lemma getitem_ok (x : list R) i :
  (i < length x)%nat -> getitem x i = inr (nth i x 0).
Proof.
  intros Hi. unfold getitem.
  destruct (nth_error x i) as [v|] eqn:E.
  - now rewrite (nth_error_nth _ _ 0 E).
  - apply nth_error_None in E. lia.
Qed.

Lemma setitem_ok (x : list R) i v :
  (i < length x)%nat -> setitem x i v = inr (upd x i v).
Proof.
  intros Hi. unfold setitem.
  destruct (Nat.ltb_spec i (length x)); [reflexivity | lia].
Qed.

Lemma np_zeros_ok (n : Z) :
  (0 <= n)%Z -> np_zeros n = inr (repeat 0 (Z.to_nat n)).
Proof.
  intros Hn. unfold np_zeros. destruct (Z.ltb_spec n 0); [lia | reflexivity].
Qed.

Lemma zip_with_length f (a b : list R) :
  length a = length b -> length (zip_with f a b) = length a.
Proof.
  intros E. unfold zip_with. rewrite length_map, length_combine. lia.
Qed.

Lemma nth_zip_with f (a b : list R) i :
  length a = length b -> (i < length a)%nat ->
  nth i (zip_with f a b) 0 = f (nth i a 0) (nth i b 0).
Proof.
  revert b i. induction a as [|x a IH]; intros [|y b] i E Hi;
    simpl in *; try lia.
  destruct i as [|i]; [reflexivity|].
  apply IH; lia.
Qed.

(** ** Means *)

Lemma mean_nil : mean [] = 0.
Proof. unfold mean, Rdiv. simpl. ring. Qed.

Lemma mean_single (r : R) : mean [r] = r.
Proof. unfold mean, np_sum. simpl. field. Qed.

(** The incremental update of the notebooks turns the mean of [l] into the
    mean of [l ++ [r]]. *)
Lemma mean_snoc (l : list R) (r : R) :
  mean l + 1 / (INR (length l) + 1) * (r - mean l) = mean (l ++ [r]).
Proof.
  unfold mean. rewrite np_sum_app, length_app. simpl length.
  rewrite Nat.add_1_r, S_INR.
  replace (np_sum [r]) with r by (unfold np_sum; simpl; ring).
  destruct l as [|x l].
  - simpl. unfold np_sum. simpl. unfold Rdiv. rewrite !Rmult_0_l.
    replace (0 + 1) with 1 by ring. rewrite Rinv_1. ring.
  - assert (0 < INR (length (x :: l))) by (apply lt_0_INR; simpl; lia).
    field. lra.
Qed.

Lemma rewards_of_snoc a hA hR A r :
  length hA = length hR ->
  rewards_of a (hA ++ [A]) (hR ++ [r])
  = rewards_of a hA hR ++ (if Nat.eqb A a then [r] else []).
Proof.
  revert hR. induction hA as [|x hA IH]; intros [|y hR] E; simpl in *;
    try discriminate.
  - destruct (Nat.eqb A a); reflexivity.
  - rewrite IH by lia. destruct (Nat.eqb x a); reflexivity.
Qed.

Lemma rewards_of_selected a hA hR :
  length hA = length hR -> (In a hA <-> rewards_of a hA hR <> []).
Proof.
  revert hR. induction hA as [|x hA IH]; intros [|y hR] E; simpl in *;
    try discriminate.
  - split; [tauto | congruence].
  - destruct (Nat.eqb_spec x a) as [->|Hne].
    + split; [discriminate | now left].
    + rewrite <- IH by lia. split; [intros [?|?]; [congruence | assumption]|].
      now right.
Qed.


(** ** The shared update [observe] *)

Section UCBFacts.

Import UCB.

Lemma observe_spec env A st w :
  (A < length (N st))%nat -> (A < length (Q st))%nat ->
  observe env A st w
  = (inr {| Q := upd (Q st) A
                   (nth A (Q st) 0
                    + 1 / (nth A (N st) 0 + 1)
                      * (reward env (length (calls w)) A - nth A (Q st) 0));
            N := upd (N st) A (nth A (N st) 0 + 1);
            hist_A := hist_A st ++ [A];
            hist_R := hist_R st ++ [reward env (length (calls w)) A] |},
     {| rng := rng w; calls := calls w ++ [A] |}).
Proof.
  intros HN HQ. unfold observe, step, bind, lift, ret.
  rewrite (getitem_ok _ _ HN), (setitem_ok _ _ _ HN).
  rewrite getitem_ok by (rewrite upd_length; exact HN).
  rewrite (getitem_ok _ _ HQ), (setitem_ok _ _ _ HQ).
  rewrite nth_upd_same by exact HN.
  reflexivity.
Qed.

Lemma observe_inv env k w0 t st w A :
  loop_inv k w0 t st w -> (A < k)%nat ->
  exists st' w',
    observe env A st w = (inr st', w')
    /\ loop_inv k w0 (S t) st' w'
    /\ hist_A st' = hist_A st ++ [A]
    /\ hist_R st' = hist_R st ++ [reward env (length (calls w)) A]
    /\ rng w' = rng w.
Proof.
  intros [HQ HN HA HR HC HS HF Hcnt Hmean] HAk.
  eexists. eexists. split.
  { apply observe_spec; lia. }
  split; [|repeat split].
  constructor; cbn [Q N hist_A hist_R].
  - rewrite upd_length. exact HQ.
  - rewrite upd_length. exact HN.
  - rewrite length_app. simpl. lia.
  - rewrite length_app. simpl. lia.
  - rewrite HC. now rewrite app_assoc.
  - rewrite np_sum_upd by lia. rewrite HS, S_INR. lra.
  - apply Forall_app. split; [exact HF|]. constructor; [exact HAk | constructor].
  - intros a Ha. rewrite rewards_of_snoc by lia.
    destruct (Nat.eqb_spec A a) as [->|Hne].
    + rewrite nth_upd_same by lia. rewrite length_app. simpl length.
      rewrite Nat.add_1_r, S_INR. now rewrite Hcnt.
    + rewrite nth_upd_other by exact Hne. rewrite app_nil_r. now apply Hcnt.
  - intros a Ha. rewrite rewards_of_snoc by lia.
    destruct (Nat.eqb_spec A a) as [->|Hne].
    + rewrite nth_upd_same by lia.
      rewrite (Hcnt a Ha), (Hmean a Ha). apply mean_snoc.
    + rewrite nth_upd_other by exact Hne. rewrite app_nil_r. now apply Hmean.
Qed.

End UCBFacts.

(** ** Maximum, candidates and uniform choice *)

Lemma fold_max_ge_init (l : list R) (a : R) : a <= fold_left Rmax l a.
Proof.
  revert a. induction l as [|x l IH]; intros a; simpl.
  - lra.
  - apply Rle_trans with (Rmax a x); [apply Rmax_l | apply IH].
Qed.

Lemma fold_max_ge (l : list R) (a x : R) :
  In x l -> x <= fold_left Rmax l a.
Proof.
  revert a. induction l as [|y l IH]; intros a; simpl.
  - tauto.
  - intros [->|Hin].
    + apply Rle_trans with (Rmax a x); [apply Rmax_r | apply fold_max_ge_init].
    + now apply IH.
Qed.

Lemma fold_max_in (l : list R) (a : R) :
  fold_left Rmax l a = a \/ In (fold_left Rmax l a) l.
Proof.
  revert a. induction l as [|y l IH]; intros a; simpl.
  - now left.
  - destruct (IH (Rmax a y)) as [E|Hin].
    + rewrite E. unfold Rmax. destruct (Rle_dec a y); [right; now left | now left].
    + right. now right.
Qed.

Lemma np_max_spec (arr : list R) :
  arr <> [] ->
  exists mx, np_max arr = inr mx
             /\ In mx arr
             /\ forall x, In x arr -> x <= mx.
Proof.
  destruct arr as [|a l]; [congruence|]. intros _.
  exists (fold_left Rmax l a). split; [reflexivity|]. split.
  - destruct (fold_max_in l a) as [E|Hin]; [rewrite E; now left | now right].
  - intros x [<-|Hin]; [apply fold_max_ge_init | now apply fold_max_ge].
Qed.

Lemma flatnonzero_eq_in (arr : list R) (m : R) (s i : nat) :
  In i (flatnonzero_eq arr m s)
  <-> (s <= i < s + length arr)%nat /\ nth (i - s) arr 0 = m.
Proof.
  revert s. induction arr as [|a l IH]; intros s; simpl.
  - split; [tauto | lia].
  - destruct (Req_dec_T a m) as [E|NE]; simpl; rewrite IH.
    + split.
      * intros [<-|[Hr Hn]].
        -- rewrite Nat.sub_diag. split; [lia | exact E].
        -- split; [lia|]. replace (i - s)%nat with (S (i - S s)) by lia.
           exact Hn.
      * intros [Hr Hn]. destruct (Nat.eq_dec s i) as [->|Hne]; [now left|].
        right. split; [lia|].
        replace (i - s)%nat with (S (i - S s)) in Hn by lia. exact Hn.
    + split.
      * intros [Hr Hn]. split; [lia|].
        replace (i - s)%nat with (S (i - S s)) by lia. exact Hn.
      * intros [Hr Hn]. destruct (Nat.eq_dec s i) as [->|Hne].
        -- rewrite Nat.sub_diag in Hn. contradiction.
        -- split; [lia|].
           replace (i - s)%nat with (S (i - S s)) in Hn by lia. exact Hn.
Qed.

Lemma flatnonzero_eq_NoDup (arr : list R) (m : R) (s : nat) :
  NoDup (flatnonzero_eq arr m s).
Proof.
  revert s. induction arr as [|a l IH]; intros s; simpl.
  - constructor.
  - destruct (Req_dec_T a m); [|apply IH].
    constructor; [|apply IH].
    rewrite flatnonzero_eq_in. lia.
Qed.

Lemma bucket_from_le (x : R) (j n : nat) : (j <= bucket_from x j n <= j + n)%nat.
Proof.
  revert j. induction n as [|n IH]; intros j; simpl.
  - lia.
  - destruct (Rlt_dec x (INR j + 1)); [lia|]. specialize (IH (S j)). lia.
Qed.

Lemma bucket_lt (u : R) (n : nat) : (0 < n)%nat -> (bucket u n < n)%nat.
Proof.
  intros Hn. unfold bucket.
  pose proof (bucket_from_le (u * INR n) 0 (n - 1)). lia.
Qed.

Lemma bucket_from_cell (x : R) (j n i : nat) :
  (j <= i <= j + n)%nat -> INR i <= x < INR i + 1 ->
  bucket_from x j n = i.
Proof.
  revert j. induction n as [|n IH]; intros j Hji Hx; simpl.
  - lia.
  - destruct (Rlt_dec x (INR j + 1)) as [Hlt|Hge].
    + assert (INR i < INR (S j)) by (rewrite S_INR; lra).
      apply INR_lt in H. lia.
    + apply IH; [|exact Hx].
      assert (INR j < INR i) by lra. apply INR_lt in H. lia.
Qed.

(** The cell of the [j]-th of [m] positions is the interval
    [[j/m, (j+1)/m)] of the variate. *)
Lemma bucket_cell (u : R) (m j : nat) :
  (j < m)%nat -> INR j / INR m <= u < (INR j + 1) / INR m ->
  bucket u m = j.
Proof.
  intros Hj [Hlo Hhi]. unfold bucket.
  assert (Hm : 0 < INR m) by (apply lt_0_INR; lia).
  apply bucket_from_cell; [lia|]. split.
  - apply Rmult_le_compat_r with (r := INR m) in Hlo; [|lra].
    unfold Rdiv in Hlo. rewrite Rmult_assoc, Rinv_l, Rmult_1_r in Hlo by lra.
    exact Hlo.
  - apply Rmult_lt_compat_r with (r := INR m) in Hhi; [|lra].
    unfold Rdiv in Hhi. rewrite Rmult_assoc, Rinv_l, Rmult_1_r in Hhi by lra.
    exact Hhi.
Qed.

Lemma randint_spec (n : Z) (w : world) :
  (0 < n)%Z ->
  randint n w = (inr (bucket (rng w 0) (Z.to_nat n)), advance w).
Proof.
  intros Hn. unfold randint. destruct (Z.leb_spec n 0); [lia | reflexivity].
Qed.

Lemma random_choice_spec (a : list nat) (w : world) :
  a <> [] ->
  random_choice a w
  = (inr (nth (bucket (rng w 0) (length a)) a O), advance w).
Proof.
  intros Ha. destruct a as [|x l]; [congruence|].
  assert (Hlen : (0 < Z.of_nat (length (x :: l)))%Z) by (simpl length; lia).
  unfold random_choice. rewrite (bind_ok _ _ _ _ _ (randint_spec _ w Hlen)).
  unfold ret. now rewrite Nat2Z.id.
Qed.

Section ArgmaxFacts.

Import UCB.

(** The candidates of [argmax_rand] are the maximal positions. *)
Lemma argmax_candidates (arr : list R) :
  arr <> [] ->
  exists mx, np_max arr = inr mx
    /\ flatnonzero_eq arr mx 0 <> []
    /\ forall i, In i (flatnonzero_eq arr mx 0) <-> maximal arr i.
Proof.
  intros Hne. destruct (np_max_spec arr Hne) as (mx & Emx & Hin & Hub).
  exists mx. split; [exact Emx|].
  assert (Hiff : forall i, In i (flatnonzero_eq arr mx 0) <-> maximal arr i).
  { intros i. rewrite flatnonzero_eq_in, Nat.sub_0_r. unfold maximal. split.
    - intros [Hr E]. split; [lia|]. intros j Hj. rewrite E.
      apply Hub. now apply nth_In.
    - intros [Hr Hmax]. split; [lia|].
      destruct (In_nth _ _ 0 Hin) as (j & Hj & Ej).
      apply Rle_antisym.
      + apply Hub. now apply nth_In.
      + rewrite <- Ej. now apply Hmax. }
  split; [|exact Hiff].
  destruct (In_nth _ _ 0 Hin) as (j & Hj & Ej).
  assert (In j (flatnonzero_eq arr mx 0)).
  { rewrite flatnonzero_eq_in, Nat.sub_0_r. split; [lia | exact Ej]. }
  intros E. rewrite E in H. exact H.
Qed.

Lemma argmax_rand_spec (arr : list R) (w : world) :
  arr <> [] ->
  exists mx, np_max arr = inr mx
    /\ argmax_rand arr w
       = (inr (nth (bucket (rng w 0) (length (flatnonzero_eq arr mx 0)))
                   (flatnonzero_eq arr mx 0) O),
          advance w).
Proof.
  intros Hne. destruct (argmax_candidates arr Hne) as (mx & Emx & Hc & _).
  exists mx. split; [exact Emx|].
  unfold argmax_rand, bind, lift. rewrite Emx.
  now apply random_choice_spec.
Qed.

Lemma argmax_rand_maximal (arr : list R) (w : world) :
  arr <> [] ->
  exists i, argmax_rand arr w = (inr i, advance w) /\ maximal arr i.
Proof.
  intros Hne. destruct (argmax_candidates arr Hne) as (mx & Emx & Hc & Hiff).
  destruct (argmax_rand_spec arr w Hne) as (mx' & Emx' & E).
  assert (mx' = mx) by congruence. subst mx'.
  eexists. split; [exact E|].
  apply Hiff. apply nth_In. apply bucket_lt.
  destruct (flatnonzero_eq arr mx 0); [congruence | simpl; lia].
Qed.

End ArgmaxFacts.

(** ** The loops of [ucb_bandit] and [simple_bandit] *)

Lemma firstn_seq (n s len : nat) :
  firstn n (seq s len) = seq s (Nat.min n len).
Proof.
  revert n s. induction len as [|len IH]; intros [|n] s; simpl; try reflexivity.
  now rewrite IH.
Qed.

Lemma rewards_of_seq_above (a s n : nat) (hR : list R) :
  (a < s)%nat -> rewards_of a (seq s n) hR = [].
Proof.
  revert s hR. induction n as [|n IH]; intros s [|r hR] Hs; simpl;
    try reflexivity.
  destruct (Nat.eqb_spec s a); [lia|]. apply IH. lia.
Qed.

Lemma rewards_of_seq (a s n : nat) (hR : list R) :
  length hR = n -> (s <= a < s + n)%nat ->
  rewards_of a (seq s n) hR = [nth (a - s) hR 0].
Proof.
  revert s hR. induction n as [|n IH]; intros s [|r hR] E Ha;
    simpl in *; try lia.
  destruct (Nat.eqb_spec s a) as [->|Hne].
  - rewrite Nat.sub_diag. f_equal. apply rewards_of_seq_above. lia.
  - replace (a - s)%nat with (S (a - S s)) by lia.
    apply IH; lia.
Qed.

Section RunFacts.

Import UCB.

Variable env : BanditEnv.

Lemma py_range_0 (n : Z) : py_range 0 n = seq 0 (Z.to_nat n).
Proof. unfold py_range. now rewrite Z.sub_0_r. Qed.

Lemma init_state_spec (w : world) :
  (0 <= size env)%Z ->
  init_state env w
  = (inr {| Q := repeat 0 (arms env); N := repeat 0 (arms env);
            hist_A := []; hist_R := [] |}, w).
Proof.
  intros Hk. unfold init_state, bind, lift, ret.
  now rewrite (np_zeros_ok _ Hk).
Qed.

Lemma init_inv (w : world) :
  loop_inv (arms env) w 0
    {| Q := repeat 0 (arms env); N := repeat 0 (arms env);
       hist_A := []; hist_R := [] |} w.
Proof.
  constructor; cbn [Q N hist_A hist_R].
  - apply repeat_length.
  - apply repeat_length.
  - reflexivity.
  - reflexivity.
  - now rewrite app_nil_r.
  - apply np_sum_repeat_0.
  - constructor.
  - intros a Ha. simpl. now apply nth_repeat_lt.
  - intros a Ha. simpl rewards_of. rewrite mean_nil. now apply nth_repeat_lt.
Qed.

(** One more iteration of [ucb_bandit], in the warm-up loop. *)
Lemma ucb_after_S_warm (c : R) (t : nat) (w : world) :
  (t < arms env)%nat ->
  ucb_after env c (S t) w = bind (ucb_after env c t) (warmup_body env t) w.
Proof.
  intros Ht. unfold ucb_after, ucb_loops.
  rewrite py_range_0. fold (arms env). rewrite !firstn_seq.
  replace (S t - arms env)%nat with 0%nat by lia.
  replace (t - arms env)%nat with 0%nat by lia.
  replace (Nat.min (S t) (arms env)) with (S t) by lia.
  replace (Nat.min t (arms env)) with t by lia.
  rewrite seq_S. simpl seq. rewrite Nat.add_0_l.
  rewrite bind_assoc. apply bind_ext. intros st0 w0.
  unfold bind. rewrite for_each_app. unfold bind.
  destruct (for_each (seq 0 t) (warmup_body env) st0 w0) as [[e|st1] w1];
    [reflexivity|].
  simpl. unfold ret, bind.
  destruct (warmup_body env t st1 w1) as [[e|st2] w2]; reflexivity.
Qed.

(** One more iteration of [ucb_bandit], in the bound loop. *)
Lemma ucb_after_S_bound (c : R) (t : nat) (w : world) :
  (arms env <= t)%nat ->
  ucb_after env c (S t) w = bind (ucb_after env c t) (bound_body env c t) w.
Proof.
  intros Ht. unfold ucb_after, ucb_loops.
  rewrite py_range_0. fold (arms env). rewrite !firstn_seq.
  replace (Nat.min (S t) (arms env)) with (arms env) by lia.
  replace (Nat.min t (arms env)) with (arms env) by lia.
  replace (S t - arms env)%nat with (S (t - arms env)) by lia.
  rewrite seq_S. replace (arms env + (t - arms env))%nat with t by lia.
  rewrite bind_assoc. apply bind_ext. intros st0 w0.
  rewrite bind_assoc. apply bind_ext. intros st1 w1.
  rewrite for_each_app. apply bind_ext. intros st2 w2.
  apply for_each_one.
Qed.

(** The run of [ucb_bandit] is its state after [max k nb] iterations. *)
Lemma ucb_run_after (nb : Z) (c : R) (w : world) :
  (0 <= size env)%Z ->
  ucb_run env nb c w
  = ucb_after env c (Nat.max (arms env) (Z.to_nat nb)) w.
Proof.
  intros Hk. unfold ucb_run, ucb_after.
  rewrite py_range_0. fold (arms env). rewrite firstn_seq.
  replace (Nat.min (Nat.max (arms env) (Z.to_nat nb)) (arms env))
    with (arms env) by lia.
  unfold py_range. fold (arms env).
  replace (Z.to_nat (nb - size env))
    with (Nat.max (arms env) (Z.to_nat nb) - arms env)%nat
    by (unfold arms; lia).
  reflexivity.
Qed.

Lemma ucb_scores_length (c : R) (t : nat) (Qs Ns : list R) :
  length Qs = length Ns -> length (ucb_scores c t Qs Ns) = length Qs.
Proof. apply zip_with_length. Qed.

Lemma bound_body_spec (c : R) (w0 : world) (t : nat) st w :
  (1 <= arms env)%nat -> loop_inv (arms env) w0 t st w ->
  exists A st' w',
    bound_body env c t st w = (inr st', w')
    /\ loop_inv (arms env) w0 (S t) st' w'
    /\ hist_A st' = hist_A st ++ [A]
    /\ hist_R st' = hist_R st ++ [reward env (length (calls w)) A]
    /\ maximal (ucb_scores c t (Q st) (N st)) A.
Proof.
  intros Hk Hinv.
  assert (Hlen : length (ucb_scores c t (Q st) (N st)) = arms env).
  { rewrite ucb_scores_length; destruct Hinv; congruence. }
  assert (Hne : ucb_scores c t (Q st) (N st) <> []).
  { intros E. rewrite E in Hlen. simpl in Hlen. lia. }
  destruct (argmax_rand_maximal _ w Hne) as (A & EA & HA).
  assert (HAk : (A < arms env)%nat) by (destruct HA; lia).
  assert (Hinv' : loop_inv (arms env) w0 t st (advance w)).
  { destruct Hinv. constructor; auto. }
  destruct (observe_inv env _ _ _ _ _ A Hinv' HAk)
    as (st' & w' & E & Hinv2 & HhA & HhR & _).
  exists A, st', w'. split; [|split; [|split; [|split]]]; try assumption.
  unfold bound_body. now rewrite (bind_ok _ _ _ _ _ EA).
Qed.

(** The run of [ucb_bandit] passes through its state after the warm-up
    loop and continues with the bound loop. *)
Lemma ucb_run_split (nb : Z) (c : R) (w : world) :
  ucb_run env nb c w
  = bind (ucb_after env c (arms env))
         (for_each (py_range (size env) nb) (bound_body env c)) w.
Proof.
  unfold ucb_run, ucb_after, ucb_loops.
  rewrite py_range_0. fold (arms env). rewrite firstn_seq.
  rewrite Nat.min_id, Nat.sub_diag. simpl seq at 3.
  rewrite bind_assoc. apply bind_ext. intros st0 w0.
  rewrite bind_assoc. apply bind_ext. intros st1 w1.
  reflexivity.
Qed.

(** The warm-up loop: after [t <= k] iterations the actions [0 .. t-1] have
    been tried in this order. *)
Lemma ucb_after_warm (c : R) (w : world) (t : nat) :
  (0 <= size env)%Z -> (t <= arms env)%nat ->
  exists st w', ucb_after env c t w = (inr st, w')
    /\ loop_inv (arms env) w t st w'
    /\ hist_A st = seq 0 t
    /\ hist_R st
       = map (fun a => reward env (length (calls w) + a) a) (seq 0 t).
Proof.
  intros Hk. induction t as [|t IH]; intros Ht.
  - eexists. eexists. split; [|split; [apply init_inv | split; reflexivity]].
    unfold ucb_after, ucb_loops. rewrite py_range_0. simpl firstn.
    rewrite Nat.sub_0_l. simpl seq.
    rewrite (bind_ok _ _ _ _ _ (init_state_spec w Hk)).
    reflexivity.
  - destruct IH as (st & w1 & E & Hinv & HhA & HhR); [lia|].
    rewrite (ucb_after_S_warm c t w Ht), (bind_ok _ _ _ _ _ E).
    destruct (observe_inv env _ _ _ _ _ t Hinv Ht)
      as (st' & w' & E' & Hinv' & HhA' & HhR' & _).
    exists st', w'. split; [exact E'|]. split; [exact Hinv'|]. split.
    + rewrite HhA', HhA, seq_S. reflexivity.
    + rewrite HhR', HhR, seq_S, map_app. simpl map.
      destruct Hinv as [_ _ HlA _ HC]. rewrite HC, length_app, HlA.
      reflexivity.
Qed.

(** Every prefix of a run of [ucb_bandit] on an environment with at least
    one action completes and satisfies the loop invariant. *)
Lemma ucb_after_inv (c : R) (w : world) (t : nat) :
  (1 <= size env)%Z ->
  exists st w', ucb_after env c t w = (inr st, w')
                /\ loop_inv (arms env) w t st w'.
Proof.
  intros Hk. induction t as [|t (st & w1 & E & Hinv)].
  - eexists. eexists. split; [|apply init_inv].
    unfold ucb_after, ucb_loops. rewrite py_range_0. simpl firstn.
    rewrite Nat.sub_0_l. simpl seq.
    rewrite (bind_ok _ _ _ _ _ (init_state_spec w ltac:(lia))).
    reflexivity.
  - destruct (Nat.lt_ge_cases t (arms env)) as [Hlt|Hge].
    + rewrite (ucb_after_S_warm c t w Hlt), (bind_ok _ _ _ _ _ E).
      destruct (observe_inv env _ _ _ _ _ t Hinv Hlt)
        as (st' & w' & E' & Hinv' & _).
      now exists st', w'.
    + rewrite (ucb_after_S_bound c t w Hge), (bind_ok _ _ _ _ _ E).
      destruct (bound_body_spec c w t st w1) as (A & st' & w' & E' & Hinv' & _);
        [unfold arms; lia | exact Hinv |].
      now exists st', w'.
Qed.

End RunFacts.

Section SimpleFacts.

Import UCB.

Variable env : BanditEnv.

Lemma simple_after_S (eps : R) (t : nat) (w : world) :
  simple_after env eps (S t) w
  = bind (simple_after env eps t) (simple_body env eps t) w.
Proof.
  unfold simple_after, simple_loop. rewrite seq_S, Nat.add_0_l.
  rewrite bind_assoc. apply bind_ext. intros st0 w0.
  rewrite for_each_app. apply bind_ext. intros st1 w1.
  apply for_each_one.
Qed.

Lemma simple_run_after (nb : Z) (eps : R) (w : world) :
  simple_run env nb eps w = simple_after env eps (Z.to_nat nb) w.
Proof. unfold simple_run, simple_after. now rewrite py_range_0. Qed.

Lemma simple_body_spec (eps : R) (w0 : world) (t i : nat) st w :
  (1 <= arms env)%nat -> loop_inv (arms env) w0 t st w ->
  exists st' w',
    simple_body env eps i st w = (inr st', w')
    /\ loop_inv (arms env) w0 (S t) st' w'.
Proof.
  intros Hk Hinv.
  assert (Hinv' : loop_inv (arms env) w0 t st (advance (advance w))).
  { destruct Hinv. constructor; auto. }
  assert (HA : exists A,
    (if Rlt_dec eps (rng w 0) then argmax_rand (Q st)
     else randint (size env)) (advance w) = (inr A, advance (advance w))
    /\ (A < arms env)%nat).
  { destruct (Rlt_dec eps (rng w 0)).
    - assert (Hne : Q st <> []).
      { destruct Hinv as [HQ]. intros E. rewrite E in HQ. simpl in HQ. lia. }
      destruct (argmax_rand_maximal _ (advance w) Hne) as (A & EA & HAm & _).
      exists A. split; [exact EA|]. destruct Hinv; lia.
    - eexists. split.
      + apply randint_spec. unfold arms in Hk. lia.
      + apply bucket_lt. exact Hk. }
  destruct HA as (A & EA & HAk).
  destruct (observe_inv env _ _ _ _ _ A Hinv' HAk)
    as (st' & w' & E & Hinv2 & _).
  exists st', w'. split; [|exact Hinv2].
  unfold simple_body.
  assert (Eu : random_sample w = (inr (uval (rng w 0)), advance w))
    by reflexivity.
  rewrite (bind_ok _ _ _ _ _ Eu), (bind_ok _ _ _ _ _ EA). exact E.
Qed.

(** Every prefix of a run of [simple_bandit] on an environment with at
    least one action completes and satisfies the loop invariant. *)
Lemma simple_after_inv (eps : R) (w : world) (t : nat) :
  (1 <= size env)%Z ->
  exists st w', simple_after env eps t w = (inr st, w')
                /\ loop_inv (arms env) w t st w'.
Proof.
  intros Hk. induction t as [|t (st & w1 & E & Hinv)].
  - eexists. eexists. split; [|apply init_inv].
    unfold simple_after, simple_loop. simpl seq.
    rewrite (bind_ok _ _ _ _ _ (init_state_spec env w ltac:(lia))).
    reflexivity.
  - rewrite simple_after_S, (bind_ok _ _ _ _ _ E).
    apply simple_body_spec; [unfold arms; lia | exact Hinv].
Qed.

End SimpleFacts.

(** ** Sums, [softmax] and weighted choice *)

Lemma np_sum_cons (a : R) (l : list R) : np_sum (a :: l) = a + np_sum l.
Proof. reflexivity. Qed.

Lemma np_sum_map_div (l : list R) (s : R) :
  np_sum (map (fun e => e / s) l) = np_sum l / s.
Proof.
  induction l as [|a l IH]; simpl map.
  - unfold np_sum, Rdiv. simpl. ring.
  - rewrite !np_sum_cons, IH. unfold Rdiv. ring.
Qed.

Lemma np_sum_zip_with_affine (d : R) (a b : list R) :
  length a = length b ->
  np_sum (zip_with (fun h p => h - d * p) a b) = np_sum a - d * np_sum b.
Proof.
  revert b. induction a as [|x a IH]; intros [|y b] E; simpl in E;
    try discriminate.
  - unfold zip_with, np_sum. simpl. ring.
  - unfold zip_with in *. simpl combine. simpl map.
    rewrite !np_sum_cons, IH by lia. simpl. ring.
Qed.

Lemma np_sum_ge_member (l : list R) (x : R) :
  Forall (fun v => 0 < v) l -> In x l -> x <= np_sum l.
Proof.
  induction l as [|a l IH]; intros HF Hin; [contradiction|].
  inversion HF as [|? ? Ha HF']; subst. rewrite np_sum_cons.
  assert (0 <= np_sum l).
  { clear -HF'. induction HF' as [|b l Hb _ IHl].
    - unfold np_sum. simpl. lra.
    - rewrite np_sum_cons. lra. }
  destruct Hin as [-> | Hin].
  - lra.
  - specialize (IH HF' Hin). lra.
Qed.

Lemma np_sum_le_length (l : list R) :
  Forall (fun v => v <= 1) l -> np_sum l <= INR (length l).
Proof.
  induction 1 as [|a l Ha _ IH].
  - unfold np_sum. simpl. lra.
  - rewrite np_sum_cons. simpl length. rewrite S_INR. lra.
Qed.

Lemma ln_nonneg (x : R) : 1 <= x -> 0 <= ln x.
Proof.
  intros [Hlt | <-].
  - left. rewrite <- ln_1. apply ln_increasing; lra.
  - rewrite ln_1. lra.
Qed.

Lemma exp_le_1 (v : R) : v <= 0 -> exp v <= 1.
Proof.
  intros [Hlt | ->].
  - left. rewrite <- exp_0. now apply exp_increasing.
  - rewrite exp_0. lra.
Qed.

Section SoftmaxFacts.

Import Gradient.

(** The exponentials of [softmax]: arguments at most 0, values in (0, 1],
    the value 1 reached at a maximum. *)
Lemma softmax_exps_spec (x : list R) (mx : R) :
  In mx x -> (forall v, In v x -> v <= mx) ->
  Forall (fun e => 0 < e <= 1) (softmax_exps x mx)
  /\ In 1 (softmax_exps x mx).
Proof.
  intros Hin Hub. split.
  - unfold softmax_exps. apply Forall_forall. intros e He.
    apply in_map_iff in He as (v & <- & Hv). split.
    + apply exp_pos.
    + apply exp_le_1. specialize (Hub v Hv). lra.
  - unfold softmax_exps. apply in_map_iff. exists mx. split; [|exact Hin].
    replace (mx - mx) with 0 by ring. apply exp_0.
Qed.

Lemma softmax_exps_sum (x : list R) (mx : R) :
  In mx x -> (forall v, In v x -> v <= mx) ->
  1 <= np_sum (softmax_exps x mx) <= INR (length x).
Proof.
  intros Hin Hub. destruct (softmax_exps_spec x mx Hin Hub) as [HF H1]. split.
  - apply np_sum_ge_member; [|exact H1].
    eapply Forall_impl; [|exact HF]. simpl. intros; lra.
  - replace (length x) with (length (softmax_exps x mx))
      by (unfold softmax_exps; apply length_map).
    apply np_sum_le_length.
    eapply Forall_impl; [|exact HF]. simpl. intros; lra.
Qed.

(** [softmax] of a non-empty array is a distribution with positive
    entries. *)
Lemma softmax_spec (x : list R) :
  x <> [] ->
  exists p, softmax x = inr p
    /\ length p = length x
    /\ Forall (fun v => 0 < v <= 1) p
    /\ np_sum p = 1.
Proof.
  intros Hne. destruct (np_max_spec x Hne) as (mx & Emx & Hin & Hub).
  unfold softmax. rewrite Emx. cbv zeta.
  destruct (softmax_exps_spec x mx Hin Hub) as [HF H1].
  destruct (softmax_exps_sum x mx Hin Hub) as [Hlo Hhi].
  eexists. split; [reflexivity|]. split; [|split].
  - rewrite length_map. unfold softmax_exps. apply length_map.
  - apply Forall_forall. intros v Hv.
    apply in_map_iff in Hv as (e & <- & He).
    assert (He' : 0 < e <= 1) by (rewrite Forall_forall in HF; now apply HF).
    assert (Hes : e <= np_sum (softmax_exps x mx)).
    { apply np_sum_ge_member; [|exact He].
      eapply Forall_impl; [|exact HF]. simpl. intros; lra. }
    split.
    + apply Rdiv_lt_0_compat; lra.
    + apply Rmult_le_reg_r with (r := np_sum (softmax_exps x mx)); [lra|].
      unfold Rdiv. rewrite Rmult_assoc, Rinv_l by lra. lra.
  - rewrite np_sum_map_div. unfold Rdiv. apply Rinv_r. lra.
Qed.

End SoftmaxFacts.

Lemma all_nonneg_true (p : list R) :
  Forall (fun v => 0 <= v) p -> all_nonneg p = true.
Proof.
  intros HF. unfold all_nonneg. apply forallb_forall. intros v Hv.
  rewrite Forall_forall in HF. specialize (HF v Hv).
  destruct (Rle_dec 0 v); [reflexivity | contradiction].
Qed.

Lemma cumsum_from_length (acc : R) (p : list R) :
  length (cumsum_from acc p) = length p.
Proof.
  revert acc. induction p as [|x p IH]; intros acc; simpl; auto.
Qed.

Lemma cumsum_from_last (acc d : R) (p : list R) :
  p <> [] -> last (cumsum_from acc p) d = acc + np_sum p.
Proof.
  revert acc. induction p as [|x p IH]; intros acc Hne; [congruence|].
  destruct p as [|y p].
  - simpl. unfold np_sum. simpl. ring.
  - change (last (cumsum_from acc (x :: y :: p)) d)
      with (last (cumsum_from (acc + x) (y :: p)) d).
    rewrite IH by discriminate. rewrite (np_sum_cons x). ring.
Qed.

Lemma last_map_nonempty (f : R -> R) (l : list R) (d d' : R) :
  l <> [] -> last (map f l) d' = f (last l d).
Proof.
  induction l as [|x l IH]; intros Hne; [congruence|].
  destruct l as [|y l]; [reflexivity|].
  change (last (map f (y :: l)) d' = f (last (y :: l) d)).
  apply IH. discriminate.
Qed.

Lemma searchsorted_right_lt (l : list R) (u : R) :
  l <> [] -> u < last l 0 -> (searchsorted_right l u < length l)%nat.
Proof.
  induction l as [|c l IH]; intros Hne Hu; [congruence|].
  simpl searchsorted_right. destruct (Rlt_dec u c) as [Hlt|Hge].
  - simpl. lia.
  - destruct l as [|c' l].
    + simpl in Hu. contradiction.
    + assert ((searchsorted_right (c' :: l) u < length (c' :: l))%nat).
      { apply IH; [discriminate | exact Hu]. }
      simpl length in *. lia.
Qed.

Lemma nth_error_seq_0 (n i : nat) :
  (i < n)%nat -> nth_error (seq 0 n) i = Some i.
Proof.
  intros Hi. rewrite (nth_error_nth' _ 0%nat) by (rewrite length_seq; exact Hi).
  now rewrite seq_nth.
Qed.

Lemma choice_atol_pos : 0 < choice_atol.
Proof. unfold choice_atol. apply Rinv_0_lt_compat, pow_lt. lra. Qed.

(** A weighted choice among [0 .. k-1] under a distribution returns one of
    them and consumes one variate. *)
Lemma random_choice_p_spec (k : nat) (p : list R) (w : world) :
  (1 <= k)%nat -> length p = k ->
  Forall (fun v => 0 < v <= 1) p -> np_sum p = 1 ->
  exists A, random_choice_p (seq 0 k) p w = (inr A, advance w)
            /\ (A < k)%nat.
Proof.
  intros Hk Hlen HF Hsum.
  assert (Hp : p <> []) by (intros E; rewrite E in Hlen; simpl in Hlen; lia).
  unfold random_choice_p. rewrite length_seq, Hlen, Nat.eqb_refl.
  destruct (Nat.eqb_spec k 0) as [E0|_]; [lia|]. simpl negb. cbv iota.
  rewrite all_nonneg_true
    by (eapply Forall_impl; [|exact HF]; simpl; intros; lra).
  simpl negb. cbv iota.
  destruct (Rlt_dec choice_atol (Rabs (np_sum p - 1))) as [Hbad|_].
  { rewrite Hsum in Hbad. replace (1 - 1) with 0 in Hbad by ring.
    rewrite Rabs_R0 in Hbad. pose proof choice_atol_pos. lra. }
  cbv zeta.
  set (cdf := map (fun x => x / last (cumsum p) 0) (cumsum p)).
  assert (Hc : cumsum p <> []).
  { intros E. apply (f_equal (@length R)) in E. unfold cumsum in E.
    rewrite cumsum_from_length in E. simpl in E. lia. }
  assert (Hlast : last cdf 0 = 1).
  { unfold cdf. rewrite (last_map_nonempty _ _ 0) by exact Hc.
    unfold cumsum. rewrite cumsum_from_last by exact Hp.
    rewrite Hsum. field. }
  assert (Hidx : (searchsorted_right cdf (rng w 0) < k)%nat).
  { replace k with (length cdf).
    - apply searchsorted_right_lt.
      + unfold cdf. intros E. apply map_eq_nil in E. contradiction.
      + rewrite Hlast. apply uval_range.
    - unfold cdf, cumsum. now rewrite length_map, cumsum_from_length. }
  exists (searchsorted_right cdf (rng w 0)). split; [|exact Hidx].
  cbn [negb]. unfold bind, random_sample.
  now rewrite (nth_error_seq_0 _ _ Hidx).
Qed.

(** ** The loop of [gradient_bandit] *)

Section GradientFacts.

Import Gradient.

Variable env : BanditEnv.
Variable alpha : R.
Variable baseline : bool.

Lemma gradient_init_spec (w : world) :
  (0 <= size env)%Z ->
  init_state env w
  = (inr {| H := repeat 0 (arms env); R_ := 0; N_ := 0;
            hist_A := []; hist_R := [] |}, w).
Proof.
  intros Hk. unfold init_state, bind, lift, ret.
  now rewrite (np_zeros_ok _ Hk).
Qed.

Lemma gradient_init_inv (w : world) :
  grad_inv baseline (arms env) w 0
    {| H := repeat 0 (arms env); R_ := 0; N_ := 0;
       hist_A := []; hist_R := [] |} w.
Proof.
  constructor; cbn [H R_ N_ hist_A hist_R].
  - apply repeat_length.
  - reflexivity.
  - reflexivity.
  - now rewrite app_nil_r.
  - apply np_sum_repeat_0.
  - destruct baseline; reflexivity.
  - destruct baseline; [now rewrite mean_nil | reflexivity].
Qed.

(** What one iteration does to a state whose preference array has one entry
    per action. *)
Lemma gradient_body_spec (i : nat) st (w : world) :
  (1 <= arms env)%nat -> length (H st) = arms env ->
  exists pi A,
    softmax (H st) = inr pi
    /\ length pi = arms env
    /\ np_sum pi = 1
    /\ (A < arms env)%nat
    /\ let r := reward env (length (calls w)) A in
       let N1 := if baseline then N_ st + 1 else N_ st in
       gradient_body env alpha baseline i st w
       = (inr {| H := upd (zip_with (fun h p => h - alpha * (r - R_ st) * p)
                                    (H st) pi)
                          A (nth A (H st) 0
                             + alpha * (r - R_ st) * (1 - nth A pi 0));
                 R_ := if baseline then R_ st + 1 / N1 * (r - R_ st)
                       else R_ st;
                 N_ := N1;
                 hist_A := hist_A st ++ [A];
                 hist_R := hist_R st ++ [r] |},
          {| rng := rng (advance w); calls := calls w ++ [A] |}).
Proof.
  intros Hk HlenH.
  assert (Hne : H st <> []).
  { intros E. rewrite E in HlenH. simpl in HlenH. lia. }
  destruct (softmax_spec (H st) Hne) as (pi & Epi & Hlpi & HFpi & Hspi).
  rewrite HlenH in Hlpi.
  destruct (random_choice_p_spec (arms env) pi w Hk Hlpi HFpi Hspi)
    as (A & EA & HA).
  exists pi, A. repeat (split; [assumption|]).
  cbv zeta. unfold gradient_body.
  rewrite Epi. unfold lift at 1. unfold bind at 1.
  rewrite py_range_0. fold (arms env).
  rewrite (bind_ok _ _ _ _ _ EA).
  unfold step, bind, lift, ret. cbn [calls rng advance].
  rewrite getitem_ok by lia. rewrite getitem_ok by lia.
  rewrite setitem_ok by (rewrite zip_with_length; lia).
  reflexivity.
Qed.

Lemma gradient_body_inv (w0 : world) (t i : nat) st (w : world) :
  (1 <= arms env)%nat -> grad_inv baseline (arms env) w0 t st w ->
  exists st' w',
    gradient_body env alpha baseline i st w = (inr st', w')
    /\ grad_inv baseline (arms env) w0 (S t) st' w'.
Proof.
  intros Hk [HlH HlA HlR HC HS HN HR].
  destruct (gradient_body_spec i st w Hk HlH)
    as (pi & A & Epi & Hlpi & Hspi & HA & E).
  cbv zeta in E. eexists. eexists. split; [exact E|].
  constructor; cbn [H R_ N_ hist_A hist_R calls].
  - rewrite upd_length, zip_with_length; lia.
  - rewrite length_app. simpl. lia.
  - rewrite length_app. simpl. lia.
  - rewrite HC. now rewrite app_assoc.
  - rewrite np_sum_upd by (rewrite zip_with_length; lia).
    rewrite nth_zip_with by lia.
    rewrite np_sum_zip_with_affine by lia.
    rewrite HS, Hspi. ring.
  - destruct baseline; [|exact HN]. rewrite HN, S_INR. reflexivity.
  - destruct baseline; [|exact HR].
    rewrite HN, HR. rewrite <- HlR. apply mean_snoc.
Qed.

Lemma gradient_after_S (t : nat) (w : world) :
  gradient_after env alpha baseline (S t) w
  = bind (gradient_after env alpha baseline t)
         (gradient_body env alpha baseline t) w.
Proof.
  unfold gradient_after, gradient_loop. rewrite seq_S, Nat.add_0_l.
  rewrite bind_assoc. apply bind_ext. intros st0 w0.
  rewrite for_each_app. apply bind_ext. intros st1 w1.
  apply for_each_one.
Qed.

Lemma gradient_run_after (nb : Z) (w : world) :
  gradient_run env nb alpha baseline w
  = gradient_after env alpha baseline (Z.to_nat nb) w.
Proof. unfold gradient_run, gradient_after. now rewrite py_range_0. Qed.

(** Every prefix of a run of [gradient_bandit] on an environment with at
    least one action completes and satisfies the loop invariant. *)
Lemma gradient_after_inv (w : world) (t : nat) :
  (1 <= size env)%Z ->
  exists st w', gradient_after env alpha baseline t w = (inr st, w')
                /\ grad_inv baseline (arms env) w t st w'.
Proof.
  intros Hk. induction t as [|t (st & w1 & E & Hinv)].
  - eexists. eexists. split; [|apply gradient_init_inv].
    unfold gradient_after, gradient_loop. simpl seq.
    rewrite (bind_ok _ _ _ _ _ (gradient_init_spec w ltac:(lia))).
    reflexivity.
  - rewrite gradient_after_S, (bind_ok _ _ _ _ _ E).
    apply gradient_body_inv; [unfold arms; lia | exact Hinv].
Qed.

End GradientFacts.

(** ** Runs on unusual configurations *)

Lemma np_zeros_negative (n : Z) : (n < 0)%Z -> np_zeros n = inl ValueError.
Proof.
  intros Hn. unfold np_zeros. destruct (Z.ltb_spec n 0); [reflexivity | lia].
Qed.

Lemma np_sum_map_scale (d : R) (l : list R) :
  np_sum (map (fun p => d * p) l) = d * np_sum l.
Proof.
  induction l as [|a l IH]; simpl map.
  - unfold np_sum. simpl. ring.
  - rewrite !np_sum_cons, IH. ring.
Qed.

Section ConfigurationFacts.

Variable env : BanditEnv.

(** With a budget of at most [k] steps, [ucb_bandit] still runs its whole
    warm-up loop, and nothing else. *)
Lemma ucb_run_short (nb : Z) (c : R) (w : world) :
  (0 <= size env)%Z -> (nb <= size env)%Z ->
  exists st w',
    UCB.ucb_run env nb c w = (inr st, w')
    /\ UCB.hist_A st = seq 0 (arms env)
    /\ length (UCB.hist_R st) = arms env
    /\ length (UCB.Q st) = arms env
    /\ calls w' = calls w ++ seq 0 (arms env).
Proof.
  intros Hk Hnb.
  destruct (ucb_after_warm env c w (arms env) Hk (le_n _))
    as (st & w' & E & Hinv & HhA & _).
  exists st, w'. split.
  - rewrite ucb_run_split, (bind_ok _ _ _ _ _ E). unfold py_range.
    replace (Z.to_nat (nb - size env)) with 0%nat by lia. reflexivity.
  - destruct Hinv as [HlQ _ _ HlR HC]. rewrite HC, HhA. auto.
Qed.

Lemma ucb_run_negative (nb : Z) (c : R) (w : world) :
  (size env < 0)%Z -> UCB.ucb_run env nb c w = (inl ValueError, w).
Proof.
  intros Hk. unfold UCB.ucb_run, UCB.ucb_loops, UCB.init_state, bind, lift.
  now rewrite (np_zeros_negative _ Hk).
Qed.

Lemma simple_run_negative (nb : Z) (eps : R) (w : world) :
  (size env < 0)%Z -> UCB.simple_run env nb eps w = (inl ValueError, w).
Proof.
  intros Hk. unfold UCB.simple_run, UCB.simple_loop, UCB.init_state, bind, lift.
  now rewrite (np_zeros_negative _ Hk).
Qed.

Lemma gradient_run_negative (nb : Z) (alpha : R) (baseline : bool)
  (w : world) :
  (size env < 0)%Z ->
  Gradient.gradient_run env nb alpha baseline w = (inl ValueError, w).
Proof.
  intros Hk.
  unfold Gradient.gradient_run, Gradient.gradient_loop, Gradient.init_state,
    bind, lift.
  now rewrite (np_zeros_negative _ Hk).
Qed.

Lemma py_range_cons (nb : Z) :
  (0 < nb)%Z -> py_range 0 nb = O :: seq 1 (Z.to_nat nb - 1).
Proof.
  intros Hnb. rewrite py_range_0.
  replace (Z.to_nat nb) with (S (Z.to_nat nb - 1)) at 1 by lia. reflexivity.
Qed.

(** Without any action the first iteration fails on the maximum of an
    empty array. *)
Lemma ucb_run_no_action (nb : Z) (c : R) (w : world) :
  size env = 0%Z -> (0 < nb)%Z ->
  UCB.ucb_run env nb c w = (inl ValueError, w).
Proof.
  intros Hk Hnb. unfold UCB.ucb_run, UCB.ucb_loops.
  rewrite (bind_ok _ _ _ _ _ (init_state_spec env w ltac:(lia))).
  rewrite Hk, (py_range_cons nb Hnb). unfold arms. rewrite Hk.
  reflexivity.
Qed.

Lemma simple_run_no_action (nb : Z) (eps : R) (w : world) :
  size env = 0%Z -> (0 < nb)%Z ->
  UCB.simple_run env nb eps w = (inl ValueError, advance w).
Proof.
  intros Hk Hnb. unfold UCB.simple_run, UCB.simple_loop.
  rewrite (bind_ok _ _ _ _ _ (init_state_spec env w ltac:(lia))).
  rewrite (py_range_cons nb Hnb). unfold arms. rewrite Hk.
  simpl. unfold bind, UCB.simple_body, bind, random_sample. rewrite Hk.
  destruct (Rlt_dec eps (rng w 0)); reflexivity.
Qed.

Lemma gradient_run_no_action (nb : Z) (alpha : R) (baseline : bool)
  (w : world) :
  size env = 0%Z -> (0 < nb)%Z ->
  Gradient.gradient_run env nb alpha baseline w = (inl ValueError, w).
Proof.
  intros Hk Hnb. unfold Gradient.gradient_run, Gradient.gradient_loop.
  rewrite (bind_ok _ _ _ _ _ (gradient_init_spec env w ltac:(lia))).
  rewrite (py_range_cons nb Hnb). unfold arms. rewrite Hk.
  reflexivity.
Qed.

(** With a budget of at most 0 the single loop of [simple_bandit] and of
    [gradient_bandit] is not entered. *)
Lemma simple_run_no_step (nb : Z) (eps : R) (w : world) :
  (0 <= size env)%Z -> (nb <= 0)%Z ->
  UCB.simple_run env nb eps w
  = (inr {| UCB.Q := repeat 0 (arms env); UCB.N := repeat 0 (arms env);
            UCB.hist_A := []; UCB.hist_R := [] |}, w).
Proof.
  intros Hk Hnb. unfold UCB.simple_run, UCB.simple_loop.
  rewrite (bind_ok _ _ _ _ _ (init_state_spec env w Hk)).
  rewrite py_range_0. replace (Z.to_nat nb) with 0%nat by lia. reflexivity.
Qed.

Lemma gradient_run_no_step (nb : Z) (alpha : R) (baseline : bool)
  (w : world) :
  (0 <= size env)%Z -> (nb <= 0)%Z ->
  Gradient.gradient_run env nb alpha baseline w
  = (inr {| Gradient.H := repeat 0 (arms env);
            Gradient.R_ := 0; Gradient.N_ := 0;
            Gradient.hist_A := []; Gradient.hist_R := [] |}, w).
Proof.
  intros Hk Hnb. unfold Gradient.gradient_run, Gradient.gradient_loop.
  rewrite (bind_ok _ _ _ _ _ (gradient_init_spec env w Hk)).
  rewrite py_range_0. replace (Z.to_nat nb) with 0%nat by lia. reflexivity.
Qed.

End ConfigurationFacts.

(** ** The state after the warm-up loop *)

Lemma ucb_warm_state (env : BanditEnv) (c : R) (w : world) :
  (0 <= size env)%Z ->
  exists st w',
    UCB.ucb_after env c (arms env) w = (inr st, w')
    /\ UCB.hist_A st = seq 0 (arms env)
    /\ UCB.hist_R st
       = map (fun a => reward env (length (calls w) + a) a)
             (seq 0 (arms env))
    /\ UCB.N st = repeat 1 (arms env)
    /\ UCB.Q st = UCB.hist_R st.
Proof.
  intros Hk.
  destruct (ucb_after_warm env c w (arms env) Hk (le_n _))
    as (st & w' & E & Hinv & HhA & HhR).
  exists st, w'. split; [exact E|].
  split; [exact HhA|]. split; [exact HhR|].
  destruct Hinv as [HlQ HlN _ HlR _ _ _ Hcnt Hmean]. split.
  - apply (nth_ext _ _ 0 0).
    + now rewrite repeat_length.
    + intros a Ha. rewrite HlN in Ha.
      rewrite (Hcnt a Ha), HhA, rewards_of_seq by (auto; lia).
      rewrite nth_repeat_lt by exact Ha. reflexivity.
  - apply (nth_ext _ _ 0 0).
    + congruence.
    + intros a Ha. rewrite HlQ in Ha.
      rewrite (Hmean a Ha), HhA, rewards_of_seq by (auto; lia).
      rewrite mean_single. now rewrite Nat.sub_0_r.
Qed.

(** ** Runs on concrete inputs *)

Example np_max_5551 : np_max [5; 5; 5; 1] = inr 5.
Proof.
  simpl. f_equal. unfold Rmax.
  repeat (destruct (Rle_dec _ _); try lra).
Qed.

Example flatnonzero_5551 : flatnonzero_eq [5; 5; 5; 1] 5 0 = [0; 1; 2]%nat.
Proof.
  simpl. repeat (destruct (Req_dec_T _ _); try lra). reflexivity.
Qed.

(** A variate in the middle third selects the second of the three tied
    maxima. *)
Example argmax_rand_5551 (w : world) :
  / 3 <= rng w 0 < 2 / 3 ->
  UCB.argmax_rand [5; 5; 5; 1] w = (inr 1%nat, advance w).
Proof.
  intros Hu.
  destruct (argmax_rand_spec [5; 5; 5; 1] w) as (mx & Emx & E);
    [discriminate|].
  rewrite np_max_5551 in Emx. injection Emx as <-.
  rewrite flatnonzero_5551 in E. rewrite E.
  rewrite (bucket_cell _ 3 1); [reflexivity | simpl; lia | simpl; lra].
Qed.

(** The scenario of the two-action stub: after the warm-up,
    [Q = [1, 0]] and [N = [1, 1]]. *)
Example ucb_stub_warmup (c : R) :
  exists st w',
    UCB.ucb_after stub_env c 2 world0 = (inr st, w')
    /\ UCB.Q st = [1; 0] /\ UCB.N st = [1; 1]
    /\ UCB.hist_A st = [0; 1]%nat /\ calls w' = [0; 1]%nat.
Proof.
  destruct (ucb_after_warm stub_env c world0 2)
    as (st & w' & E & Hinv & HhA & HhR); [simpl; lia | unfold arms; simpl; lia |].
  destruct (ucb_warm_state stub_env c world0)
    as (st2 & w2 & E2 & _ & HhR2 & HN & HQ); [simpl; lia|].
  change (arms stub_env) with 2%nat in *.
  rewrite E in E2. injection E2 as <- <-.
  exists st, w'. split; [exact E|].
  split; [now rewrite HQ, HhR2|]. split; [exact HN|]. split; [exact HhA|].
  destruct Hinv as [_ _ _ _ HC]. now rewrite HC, HhA.
Qed.

Example softmax_00 : Gradient.softmax [0; 0] = inr [/ 2; / 2].
Proof.
  unfold Gradient.softmax. simpl np_max.
  replace (Rmax 0 0) with 0 by (unfold Rmax; destruct (Rle_dec 0 0); lra).
  unfold Gradient.softmax_exps. simpl map.
  replace (0 - 0) with 0 by ring. rewrite exp_0.
  unfold np_sum. simpl fold_right. do 2 f_equal.
  - field.
  - f_equal. field.
Qed.

(** The third step of the stub scenario: whatever [c] is, the bound loop
    first selects action 0, and the estimates stay at [[1, 0]]. *)
Example ucb_stub_third_step (c : R) :
  exists st w',
    UCB.ucb_after stub_env c 3 world0 = (inr st, w')
    /\ UCB.hist_A st = [0; 1; 0]%nat
    /\ UCB.Q st = [1; 0] /\ UCB.N st = [2; 1].
Proof.
  destruct (ucb_stub_warmup c) as (st & w1 & E & HQ & HN & HhA & HC).
  rewrite (ucb_after_S_bound stub_env c 2 world0 (le_n 2)).
  rewrite (bind_ok _ _ _ _ _ E). unfold UCB.bound_body.
  rewrite HQ, HN. unfold UCB.ucb_scores, zip_with. cbn [combine map fst snd].
  set (X := c * sqrt (ln (INR 2) / 1)).
  assert (EA : UCB.argmax_rand [1 + X; 0 + X] w1 = (inr 0%nat, advance w1)).
  { destruct (argmax_rand_spec [1 + X; 0 + X] w1) as (mx & Emx & EA);
      [discriminate|].
    assert (mx = 1 + X).
    { simpl in Emx. injection Emx as <-. unfold Rmax.
      destruct (Rle_dec (1 + X) (0 + X)); lra. }
    subst mx. rewrite EA. simpl flatnonzero_eq.
    destruct (Req_dec_T (1 + X) (1 + X)) as [_|Hn]; [|congruence].
    destruct (Req_dec_T (0 + X) (1 + X)) as [Hy|_]; [lra|].
    reflexivity. }
  rewrite (bind_ok _ _ _ _ _ EA).
  rewrite observe_spec by (rewrite ?HQ, ?HN; simpl; lia).
  eexists. eexists. split; [reflexivity|].
  cbn [UCB.Q UCB.N UCB.hist_A UCB.hist_R].
  rewrite HQ, HN, HhA. cbn [upd nth app].
  change (reward stub_env (length (calls (advance w1))) 0) with 1.
  split; [reflexivity|]. split.
  - f_equal. field.
  - reflexivity.
Qed.

(** The first iteration of [gradient_bandit] on the stub with the generator
    yielding 0: the policy is uniform, action 0 is drawn, its reward 1 moves
    the two preferences by [alpha / 2] in opposite directions. *)
Example gradient_stub_first_step (alpha : R) :
  exists w',
    Gradient.gradient_after stub_env alpha true 1 world0
    = (inr {| Gradient.H := [alpha / 2; - alpha / 2];
              Gradient.R_ := 1; Gradient.N_ := 1;
              Gradient.hist_A := [0%nat]; Gradient.hist_R := [1] |}, w')
    /\ calls w' = [0%nat].
Proof.
  unfold Gradient.gradient_after, Gradient.gradient_loop.
  rewrite (bind_ok _ _ _ _ _
             (gradient_init_spec stub_env world0 ltac:(simpl; lia))).
  change (arms stub_env) with 2%nat. simpl repeat. simpl seq.
  rewrite for_each_one. unfold Gradient.gradient_body.
  cbn [Gradient.H Gradient.R_ Gradient.N_ Gradient.hist_A Gradient.hist_R].
  rewrite softmax_00. unfold lift at 1. unfold bind at 1.
  assert (EA : random_choice_p (py_range 0 (size stub_env)) [/ 2; / 2] world0
               = (inr 0%nat, advance world0)).
  { unfold random_choice_p.
    change (py_range 0 (size stub_env)) with [0; 1]%nat.
    cbn [length Nat.eqb negb all_nonneg forallb].
    destruct (Rle_dec 0 (/ 2)) as [_|Hn]; [|exfalso; lra].
    cbn [andb negb]. unfold np_sum. cbn [fold_right].
    destruct (Rlt_dec choice_atol (Rabs (/ 2 + (/ 2 + 0) - 1))) as [Hb|_].
    { replace (/ 2 + (/ 2 + 0) - 1) with 0 in Hb by field.
      rewrite Rabs_R0 in Hb. pose proof choice_atol_pos. lra. }
    cbv zeta. unfold bind, random_sample, cumsum.
    cbn [cumsum_from last map searchsorted_right world0 rng advance uval
         zero_variate].
    destruct (Rlt_dec 0 ((0 + / 2) / (0 + / 2 + / 2))) as [_|Hn].
    - reflexivity.
    - exfalso. apply Hn. apply Rdiv_lt_0_compat; lra. }
  rewrite (bind_ok _ _ _ _ _ EA).
  unfold step, bind, lift, ret.
  cbn [getitem setitem nth_error zip_with combine map length Nat.ltb Nat.leb
       upd fst snd calls advance world0 app].
  eexists. split.
  - f_equal. f_equal. change (reward stub_env 0 0) with 1.
    replace (0 + alpha * (1 - 0) * (1 - / 2)) with (alpha / 2) by field.
    replace (0 - alpha * (1 - 0) * / 2) with (- alpha / 2) by field.
    replace (0 + 1 / (0 + 1) * (1 - 0)) with 1 by field.
    replace (0 + 1) with 1 by ring. reflexivity.
  - reflexivity.
Qed.

(** * The claims *)

Section UCBClaims.

Import UCB.




(** The counts are at least 1 throughout the bound loop. *)
Lemma ucb_after_bound (env : BanditEnv) (c : R) (w : world) (t : nat) :
  (1 <= size env)%Z -> (arms env <= t)%nat ->
  exists st w', ucb_after env c t w = (inr st, w')
    /\ loop_inv (arms env) w t st w'
    /\ forall a, (a < arms env)%nat -> 1 <= nth a (N st) 0.
Proof.
  intros Hk Ht. induction Ht as [|t Ht (st & w1 & E & Hinv & Hpos)].
  - destruct (ucb_after_warm env c w (arms env)) as (st & w1 & E & Hinv & HhA & _);
      [lia | lia |].
    exists st, w1. split; [exact E|]. split; [exact Hinv|].
    intros a Ha. destruct Hinv as [_ _ _ HlR _ _ _ Hcnt _].
    rewrite (Hcnt a Ha), HhA, rewards_of_seq by (auto; lia).
    simpl. lra.
  - rewrite (ucb_after_S_bound env c t w Ht), (bind_ok _ _ _ _ _ E).
    destruct (bound_body_spec env c w t st w1)
      as (A & st' & w' & E' & Hinv' & HhA & HhR & _);
      [unfold arms; lia | exact Hinv |].
    exists st', w'. split; [exact E'|]. split; [exact Hinv'|].
    intros a Ha. specialize (Hpos a Ha).
    destruct Hinv as [_ _ HlA HlR _ _ _ Hcnt _].
    destruct Hinv' as [_ _ _ _ _ _ _ Hcnt' _].
    rewrite (Hcnt a Ha) in Hpos. rewrite (Hcnt' a Ha), HhA, HhR.
    rewrite rewards_of_snoc by congruence. rewrite length_app, plus_INR.
    assert (0 <= INR (length (if Nat.eqb A a
                              then [reward env (length (calls w1)) A]
                              else []))) by apply pos_INR.
    lra.
Qed.

(** C3. In the bound loop of [ucb_bandit], at the iteration whose loop
    variable is [t] (so [k <= t], and [t] iterations, warm-up included,
    have been completed), the selected action [A] maximises
    [Q[a] + c * sqrt(ln(t) / N[a])] over all actions, with [ln(t) >= 0]
    and [N[a] >= 1] for every action. *)
Theorem ucb_bound_selection (env : BanditEnv) (c : R) (w : world) (t : nat) :
  (1 <= size env)%Z -> (arms env <= t)%nat ->
  exists st w1 st' w2 A,
    ucb_after env c t w = (inr st, w1)
    /\ length (hist_A st) = t
    /\ bound_body env c t st w1 = (inr st', w2)
    /\ ucb_after env c (S t) w = (inr st', w2)
    /\ hist_A st' = hist_A st ++ [A]
    /\ (A < arms env)%nat
    /\ 0 <= ln (INR t)
    /\ (forall a, (a < arms env)%nat -> 1 <= nth a (N st) 0)
    /\ forall a, (a < arms env)%nat ->
         nth a (Q st) 0 + c * sqrt (ln (INR t) / nth a (N st) 0)
         <= nth A (Q st) 0 + c * sqrt (ln (INR t) / nth A (N st) 0).
Proof.
  intros Hk Ht.
  destruct (ucb_after_bound env c w t Hk Ht) as (st & w1 & E & Hinv & Hpos).
  destruct (bound_body_spec env c w t st w1)
    as (A & st' & w2 & E' & Hinv' & HhA & _ & HA & Hmax);
    [unfold arms; lia | exact Hinv |].
  assert (HlQ : length (Q st) = arms env) by (destruct Hinv; assumption).
  assert (HlN : length (N st) = arms env) by (destruct Hinv; assumption).
  assert (Hls : length (ucb_scores c t (Q st) (N st)) = arms env).
  { rewrite ucb_scores_length; congruence. }
  exists st, w1, st', w2, A.
  split; [exact E|]. split; [destruct Hinv; assumption|].
  split; [exact E'|]. split.
  { now rewrite (ucb_after_S_bound env c t w Ht), (bind_ok _ _ _ _ _ E). }
  split; [exact HhA|]. split; [lia|]. split.
  { apply ln_nonneg. replace 1 with (INR 1) by reflexivity.
    apply le_INR. unfold arms in Ht. lia. }
  split; [exact Hpos|].
  intros a Ha. specialize (Hmax a ltac:(lia)).
  unfold ucb_scores in Hmax.
  rewrite !nth_zip_with in Hmax by lia. exact Hmax.
Qed.

Lemma ucb_bound_selection_witness :
  exists st w1 st' w2 A,
    ucb_after stub_env 2 3 world0 = (inr st, w1)
    /\ length (hist_A st) = 3%nat
    /\ bound_body stub_env 2 3 st w1 = (inr st', w2)
    /\ ucb_after stub_env 2 4 world0 = (inr st', w2)
    /\ hist_A st' = hist_A st ++ [A]
    /\ (A < arms stub_env)%nat
    /\ 0 <= ln (INR 3)
    /\ (forall a, (a < arms stub_env)%nat -> 1 <= nth a (N st) 0)
    /\ forall a, (a < arms stub_env)%nat ->
         nth a (Q st) 0 + 2 * sqrt (ln (INR 3) / nth a (N st) 0)
         <= nth A (Q st) 0 + 2 * sqrt (ln (INR 3) / nth A (N st) 0).
Proof.
  apply (ucb_bound_selection stub_env 2 world0 3).
  - simpl. lia.
  - unfold arms. simpl. lia.
Defined.

End UCBClaims.

Section SelectionClaims.

Import UCB.

(** C6. On a non-empty array [argmax_rand] returns a position holding the
    maximum and never any other.  The candidates are the maximal positions,
    each listed once; with [m] candidates the one at rank [j] is returned
    exactly when the uniform variate falls in [[j/m, (j+1)/m)], so every
    maximal position has the same probability [1/m]. *)
Theorem argmax_rand_uniform_among_maxima (arr : list R) :
  arr <> [] ->
  exists cands : list nat,
    cands <> []
    /\ NoDup cands
    /\ (forall i, In i cands <-> maximal arr i)
    /\ (forall w, exists i,
          argmax_rand arr w = (inr i, advance w) /\ maximal arr i)
    /\ (forall w i w', argmax_rand arr w = (inr i, w') -> maximal arr i)
    /\ (forall w j, (j < length cands)%nat ->
          INR j / INR (length cands) <= rng w 0
                                      < (INR j + 1) / INR (length cands) ->
          argmax_rand arr w = (inr (nth j cands O), advance w)).
Proof.
  intros Hne. destruct (argmax_candidates arr Hne) as (mx & Emx & Hc & Hiff).
  exists (flatnonzero_eq arr mx 0).
  split; [exact Hc|]. split; [apply flatnonzero_eq_NoDup|].
  split; [exact Hiff|]. split; [|split].
  - intros w. now apply argmax_rand_maximal.
  - intros w i w' E.
    destruct (argmax_rand_maximal arr w Hne) as (i' & E' & Hi').
    rewrite E in E'. now inversion E'.
  - intros w j Hj Hcell.
    destruct (argmax_rand_spec arr w Hne) as (mx' & Emx' & E).
    assert (mx' = mx) by congruence. subst mx'.
    rewrite E. now rewrite (bucket_cell _ _ j Hj Hcell).
Qed.

Lemma argmax_rand_uniform_among_maxima_witness :
  exists cands : list nat,
    cands <> []
    /\ NoDup cands
    /\ (forall i, In i cands <-> maximal [5; 5; 5; 1] i)
    /\ (forall w, exists i,
          argmax_rand [5; 5; 5; 1] w = (inr i, advance w)
          /\ maximal [5; 5; 5; 1] i)
    /\ (forall w i w', argmax_rand [5; 5; 5; 1] w = (inr i, w') ->
          maximal [5; 5; 5; 1] i)
    /\ (forall w j, (j < length cands)%nat ->
          INR j / INR (length cands) <= rng w 0
                                      < (INR j + 1) / INR (length cands) ->
          argmax_rand [5; 5; 5; 1] w = (inr (nth j cands O), advance w)).
Proof.
  apply (argmax_rand_uniform_among_maxima [5; 5; 5; 1]). discriminate.
Defined.

(** C7. The warm-up loop of [ucb_bandit] tries the actions [0 .. k-1] once
    each, in this order.  In the state that the bound loop starts from,
    every count is 1 and [Q] is the array of the rewards observed, the one
    of action [a] at position [a]. *)
Theorem ucb_warmup_complete (env : BanditEnv) (c : R) (w : world) :
  (0 <= size env)%Z ->
  exists st w',
    ucb_after env c (arms env) w = (inr st, w')
    /\ (forall nb, ucb_run env nb c w
          = for_each (py_range (size env) nb) (bound_body env c) st w')
    /\ hist_A st = seq 0 (arms env)
    /\ hist_R st
       = map (fun a => reward env (length (calls w) + a) a)
             (seq 0 (arms env))
    /\ N st = repeat 1 (arms env)
    /\ Q st = hist_R st.
Proof.
  intros Hk.
  destruct (ucb_warm_state env c w Hk) as (st & w' & E & HhA & HhR & HN & HQ).
  exists st, w'. split; [exact E|]. split.
  { intros nb. now rewrite ucb_run_split, (bind_ok _ _ _ _ _ E). }
  auto.
Qed.

Lemma ucb_warmup_complete_witness :
  exists st w',
    ucb_after stub_env 2 (arms stub_env) world0 = (inr st, w')
    /\ (forall nb, ucb_run stub_env nb 2 world0
          = for_each (py_range (size stub_env) nb) (bound_body stub_env 2)
                     st w')
    /\ hist_A st = seq 0 (arms stub_env)
    /\ hist_R st
       = map (fun a => reward stub_env (length (calls world0) + a) a)
             (seq 0 (arms stub_env))
    /\ N st = repeat 1 (arms stub_env)
    /\ Q st = hist_R st.
Proof.
  apply (ucb_warmup_complete stub_env 2 world0). simpl. lia.
Defined.

End SelectionClaims.

Section GradientClaims.

Import Gradient.

(** C4. One iteration of [gradient_bandit] computes every entry of the new
    preference array from the array [H] and the policy [pi = softmax(H)] of
    the state before the iteration: the chosen action [A] gets
    [H[A] + alpha * (r - b) * (1 - pi[A])] and every other action [a] gets
    [H[a] - alpha * (r - b) * pi[a]], where [b] is the running baseline of
    that state when the flag is set and 0 otherwise. *)
Theorem gradient_simultaneous_update (env : BanditEnv) (alpha : R)
  (baseline : bool) (w : world) (t : nat) :
  (1 <= size env)%Z ->
  exists st w1 st' w2 pi A r,
    gradient_after env alpha baseline t w = (inr st, w1)
    /\ gradient_body env alpha baseline t st w1 = (inr st', w2)
    /\ gradient_after env alpha baseline (S t) w = (inr st', w2)
    /\ softmax (H st) = inr pi
    /\ hist_A st' = hist_A st ++ [A]
    /\ hist_R st' = hist_R st ++ [r]
    /\ (A < arms env)%nat
    /\ length (H st') = arms env
    /\ let b := if baseline then R_ st else 0 in
       forall a, (a < arms env)%nat ->
         nth a (H st') 0
         = if Nat.eqb a A
           then nth A (H st) 0 + alpha * (r - b) * (1 - nth A pi 0)
           else nth a (H st) 0 - alpha * (r - b) * nth a pi 0.
Proof.
  intros Hk.
  destruct (gradient_after_inv env alpha baseline w t Hk)
    as (st & w1 & E & Hinv).
  assert (Hk' : (1 <= arms env)%nat) by (unfold arms; lia).
  assert (HlH : length (H st) = arms env) by (destruct Hinv; assumption).
  destruct (gradient_body_spec env alpha baseline t st w1 Hk' HlH)
    as (pi & A & Epi & Hlpi & Hspi & HA & Ebody).
  cbv zeta in Ebody.
  eexists st, w1, _, _, pi, A, _.
  split; [exact E|]. split; [exact Ebody|]. split.
  { now rewrite gradient_after_S, (bind_ok _ _ _ _ _ E). }
  split; [exact Epi|]. cbn [H hist_A hist_R].
  split; [reflexivity|]. split; [reflexivity|]. split; [exact HA|]. split.
  { rewrite upd_length, zip_with_length; lia. }
  assert (Hb : R_ st = if baseline then R_ st else 0).
  { destruct baseline; [reflexivity|]. destruct Hinv; assumption. }
  cbv zeta. rewrite <- Hb. intros a Ha.
  destruct (Nat.eqb_spec a A) as [->|Hne].
  - rewrite nth_upd_same by (rewrite zip_with_length; lia). reflexivity.
  - rewrite nth_upd_other by congruence.
    rewrite nth_zip_with by lia. reflexivity.
Qed.

Lemma gradient_simultaneous_update_witness :
  exists st w1 st' w2 pi A r,
    gradient_after stub_env (/ 10) true 3 world0 = (inr st, w1)
    /\ gradient_body stub_env (/ 10) true 3 st w1 = (inr st', w2)
    /\ gradient_after stub_env (/ 10) true 4 world0 = (inr st', w2)
    /\ softmax (H st) = inr pi
    /\ hist_A st' = hist_A st ++ [A]
    /\ hist_R st' = hist_R st ++ [r]
    /\ (A < arms stub_env)%nat
    /\ length (H st') = arms stub_env
    /\ let b := if true then R_ st else 0 in
       forall a, (a < arms stub_env)%nat ->
         nth a (H st') 0
         = if Nat.eqb a A
           then nth A (H st) 0 + / 10 * (r - b) * (1 - nth A pi 0)
           else nth a (H st) 0 - / 10 * (r - b) * nth a pi 0.
Proof.
  apply (gradient_simultaneous_update stub_env (/ 10) true world0 3).
  simpl. lia.
Defined.

(** C9. With the baseline flag set, after every iteration of
    [gradient_bandit] the running baseline is the arithmetic mean of all
    rewards observed so far (0 before the first) and its counter is the
    number of iterations; with the flag cleared both stay 0. *)
Theorem baseline_is_running_mean (env : BanditEnv) (alpha : R) (w : world)
  (t : nat) :
  (1 <= size env)%Z ->
  (exists st w', gradient_after env alpha true t w = (inr st, w')
     /\ length (hist_R st) = t
     /\ N_ st = INR t
     /\ (hist_R st <> [] -> R_ st = mean (hist_R st))
     /\ (hist_R st = [] -> R_ st = 0))
  /\ (exists st w', gradient_after env alpha false t w = (inr st, w')
        /\ length (hist_R st) = t
        /\ N_ st = 0
        /\ R_ st = 0).
Proof.
  intros Hk. split.
  - destruct (gradient_after_inv env alpha true w t Hk)
      as (st & w' & E & [_ _ HlR _ _ HN HR]).
    exists st, w'. split; [exact E|]. split; [exact HlR|].
    split; [exact HN|]. split.
    + intros _. exact HR.
    + intros E0. rewrite HR, E0. apply mean_nil.
  - destruct (gradient_after_inv env alpha false w t Hk)
      as (st & w' & E & [_ _ HlR _ _ HN HR]).
    exists st, w'. split; [exact E|]. now split; [|split].
Qed.

Lemma baseline_is_running_mean_witness :
  (exists st w', gradient_after stub_env (/ 10) true 4 world0 = (inr st, w')
     /\ length (hist_R st) = 4%nat
     /\ N_ st = INR 4
     /\ (hist_R st <> [] -> R_ st = mean (hist_R st))
     /\ (hist_R st = [] -> R_ st = 0))
  /\ (exists st w', gradient_after stub_env (/ 10) false 4 world0
                    = (inr st, w')
        /\ length (hist_R st) = 4%nat
        /\ N_ st = 0
        /\ R_ st = 0).
Proof.
  apply (baseline_is_running_mean stub_env (/ 10) world0 4). simpl. lia.
Defined.

End GradientClaims.

Section ConfigurationClaims.

(** C2 as stated fails: with two actions and a budget of one step
    [ucb_bandit] raises nothing, calls [env.step] for both actions and
    returns histories of length two. *)
Lemma config_error_counterexample :
  (1 < size stub_env)%Z
  /\ ~ fails_before_any_step (UCB.ucb_bandit stub_env 1 2) world0
  /\ exists Qf hR w',
       UCB.ucb_bandit stub_env 1 2 world0 = (inr (Qf, [0; 1]%nat, hR), w')
       /\ calls w' = [0; 1]%nat.
Proof.
  destruct (ucb_run_short stub_env 1 2 world0)
    as (st & w' & E & HhA & HlR & HlQ & HC); [simpl; lia | simpl; lia |].
  assert (Eb : UCB.ucb_bandit stub_env 1 2 world0
               = (inr (UCB.Q st, [0; 1]%nat, UCB.hist_R st), w')).
  { unfold UCB.ucb_bandit. rewrite (bind_ok _ _ _ _ _ E). unfold ret.
    now rewrite HhA. }
  split; [simpl; lia|]. split.
  - intros (e & w1 & E1 & _). rewrite Eb in E1. discriminate.
  - exists (UCB.Q st), (UCB.hist_R st), w'. split; [exact Eb | exact HC].
Qed.

(** C2, amended.  The selectors validate nothing.  A negative number of
    actions makes the first allocation fail, and no action with a positive
    budget makes the first iteration fail, in both cases before any call to
    [env.step].  A budget [nb <= 0] is not an error for [simple_bandit] and
    [gradient_bandit]: they return at once, with empty histories and no call
    to [env.step].  A budget [nb <= k] is not an error for [ucb_bandit]: it
    runs exactly its [k] warm-up steps and returns histories of length
    [k]. *)
Theorem configuration_not_validated (env : BanditEnv) (nb : Z)
  (c eps alpha : R) (baseline : bool) (w : world) :
  ((size env < 0)%Z \/ (size env = 0%Z /\ (0 < nb)%Z) ->
     fails_before_any_step (UCB.ucb_bandit env nb c) w
     /\ fails_before_any_step (UCB.simple_bandit env nb eps) w
     /\ fails_before_any_step
          (Gradient.gradient_bandit env nb alpha baseline) w)
  /\ ((0 <= size env)%Z -> (nb <= 0)%Z ->
        UCB.simple_bandit env nb eps w
        = (inr (repeat 0 (arms env), [], []), w)
        /\ Gradient.gradient_bandit env nb alpha baseline w
           = (inr (repeat 0 (arms env), [], []), w))
  /\ ((0 <= size env)%Z -> (nb <= size env)%Z ->
        exists Qf hR w',
          UCB.ucb_bandit env nb c w = (inr (Qf, seq 0 (arms env), hR), w')
          /\ length Qf = arms env
          /\ length hR = arms env
          /\ calls w' = calls w ++ seq 0 (arms env)).
Proof.
  split; [|split].
  - intros [Hneg|[H0 Hnb]].
    + split; [|split]; exists ValueError, w; (split; [|reflexivity]).
      * unfold UCB.ucb_bandit.
        now rewrite (bind_err _ _ _ _ _ (ucb_run_negative env nb c w Hneg)).
      * unfold UCB.simple_bandit.
        now rewrite (bind_err _ _ _ _ _
                       (simple_run_negative env nb eps w Hneg)).
      * unfold Gradient.gradient_bandit.
        now rewrite (bind_err _ _ _ _ _
                       (gradient_run_negative env nb alpha baseline w Hneg)).
    + split; [|split].
      * exists ValueError, w. split; [|reflexivity].
        unfold UCB.ucb_bandit.
        now rewrite (bind_err _ _ _ _ _ (ucb_run_no_action env nb c w H0 Hnb)).
      * exists ValueError, (advance w). split; [|reflexivity].
        unfold UCB.simple_bandit.
        now rewrite (bind_err _ _ _ _ _
                       (simple_run_no_action env nb eps w H0 Hnb)).
      * exists ValueError, w. split; [|reflexivity].
        unfold Gradient.gradient_bandit.
        now rewrite (bind_err _ _ _ _ _
                       (gradient_run_no_action env nb alpha baseline w H0 Hnb)).
  - intros Hk Hnb. split.
    + unfold UCB.simple_bandit.
      now rewrite (bind_ok _ _ _ _ _ (simple_run_no_step env nb eps w Hk Hnb)).
    + unfold Gradient.gradient_bandit.
      now rewrite (bind_ok _ _ _ _ _
                     (gradient_run_no_step env nb alpha baseline w Hk Hnb)).
  - intros Hk Hnb.
    destruct (ucb_run_short env nb c w Hk Hnb)
      as (st & w' & E & HhA & HlR & HlQ & HC).
    exists (UCB.Q st), (UCB.hist_R st), w'.
    split; [|split; [exact HlQ | split; [exact HlR | exact HC]]].
    unfold UCB.ucb_bandit. rewrite (bind_ok _ _ _ _ _ E). unfold ret.
    now rewrite HhA.
Qed.

Lemma configuration_not_validated_witness :
  (fails_before_any_step (UCB.ucb_bandit empty_env 3 2) world0
   /\ fails_before_any_step (UCB.simple_bandit empty_env 3 (/ 10)) world0
   /\ fails_before_any_step
        (Gradient.gradient_bandit empty_env 3 (/ 10) true) world0)
  /\ (UCB.simple_bandit stub_env 0 (/ 10) world0
      = (inr (repeat 0 (arms stub_env), [], []), world0)
      /\ Gradient.gradient_bandit stub_env 0 (/ 10) true world0
         = (inr (repeat 0 (arms stub_env), [], []), world0))
  /\ (exists Qf hR w',
        UCB.ucb_bandit stub_env 1 2 world0
        = (inr (Qf, seq 0 (arms stub_env), hR), w')
        /\ length Qf = arms stub_env
        /\ length hR = arms stub_env
        /\ calls w' = calls world0 ++ seq 0 (arms stub_env)).
Proof.
  split; [|split].
  - apply (configuration_not_validated empty_env 3 2 (/ 10) (/ 10) true world0).
    right. split; [reflexivity | lia].
  - apply (configuration_not_validated stub_env 0 2 (/ 10) (/ 10) true world0);
      simpl; lia.
  - apply (configuration_not_validated stub_env 1 2 (/ 10) (/ 10) true world0);
      simpl; lia.
Defined.

End ConfigurationClaims.

Section ConservationClaims.

(** C8. After [t] iterations of a selector both histories have [t]
    entries, and for [ucb_bandit] (as for [simple_bandit]) the counts sum
    to [t].  A run with at least one action and a budget [nb >= k] for
    [ucb_bandit], [nb >= 0] for the other two, returns histories of length
    [nb]. *)
Theorem selection_count_conservation (env : BanditEnv) (nb : Z)
  (c eps alpha : R) (baseline : bool) (w : world) (t : nat) :
  (1 <= size env)%Z ->
  (exists st w', UCB.ucb_after env c t w = (inr st, w')
     /\ np_sum (UCB.N st) = INR t
     /\ length (UCB.hist_A st) = t /\ length (UCB.hist_R st) = t)
  /\ (exists st w', UCB.simple_after env eps t w = (inr st, w')
        /\ np_sum (UCB.N st) = INR t
        /\ length (UCB.hist_A st) = t /\ length (UCB.hist_R st) = t)
  /\ (exists st w',
        Gradient.gradient_after env alpha baseline t w = (inr st, w')
        /\ length (Gradient.hist_A st) = t
        /\ length (Gradient.hist_R st) = t)
  /\ ((size env <= nb)%Z ->
        exists Qf hA hR w',
          UCB.ucb_bandit env nb c w = (inr (Qf, hA, hR), w')
          /\ Z.of_nat (length hA) = nb /\ Z.of_nat (length hR) = nb)
  /\ ((0 <= nb)%Z ->
        (exists Qf hA hR w',
           UCB.simple_bandit env nb eps w = (inr (Qf, hA, hR), w')
           /\ Z.of_nat (length hA) = nb /\ Z.of_nat (length hR) = nb)
        /\ (exists Hf hA hR w',
              Gradient.gradient_bandit env nb alpha baseline w
              = (inr (Hf, hA, hR), w')
              /\ Z.of_nat (length hA) = nb /\ Z.of_nat (length hR) = nb)).
Proof.
  intros Hk. split; [|split; [|split; [|split]]].
  - destruct (ucb_after_inv env c w t Hk) as (st & w' & E & Hinv).
    exists st, w'. destruct Hinv. auto.
  - destruct (simple_after_inv env eps w t Hk) as (st & w' & E & Hinv).
    exists st, w'. destruct Hinv. auto.
  - destruct (gradient_after_inv env alpha baseline w t Hk)
      as (st & w' & E & Hinv).
    exists st, w'. destruct Hinv. auto.
  - intros Hnb.
    destruct (ucb_after_inv env c w (Nat.max (arms env) (Z.to_nat nb)) Hk)
      as (st & w' & E & Hinv).
    exists (UCB.Q st), (UCB.hist_A st), (UCB.hist_R st), w'. split.
    + unfold UCB.ucb_bandit.
      rewrite (bind_ok _ _ _ _ w' (eq_trans (ucb_run_after env nb c w
                                               ltac:(lia)) E)).
      reflexivity.
    + destruct Hinv as [_ _ HlA HlR]. rewrite HlA, HlR.
      unfold arms. lia.
  - intros Hnb. split.
    + destruct (simple_after_inv env eps w (Z.to_nat nb) Hk)
        as (st & w' & E & Hinv).
      exists (UCB.Q st), (UCB.hist_A st), (UCB.hist_R st), w'. split.
      * unfold UCB.simple_bandit.
        rewrite (bind_ok _ _ _ _ w' (eq_trans (simple_run_after env nb eps w)
                                              E)).
        reflexivity.
      * destruct Hinv as [_ _ HlA HlR]. rewrite HlA, HlR. lia.
    + destruct (gradient_after_inv env alpha baseline w (Z.to_nat nb) Hk)
        as (st & w' & E & Hinv).
      exists (Gradient.H st), (Gradient.hist_A st), (Gradient.hist_R st), w'.
      split.
      * unfold Gradient.gradient_bandit.
        rewrite (bind_ok _ _ _ _ w'
                   (eq_trans (gradient_run_after env alpha baseline nb w) E)).
        reflexivity.
      * destruct Hinv as [_ HlA HlR]. rewrite HlA, HlR. lia.
Qed.

Lemma selection_count_conservation_witness :
  (exists st w', UCB.ucb_after stub_env 2 7 world0 = (inr st, w')
     /\ np_sum (UCB.N st) = INR 7
     /\ length (UCB.hist_A st) = 7%nat /\ length (UCB.hist_R st) = 7%nat)
  /\ (exists Qf hA hR w',
        UCB.ucb_bandit stub_env 10 2 world0 = (inr (Qf, hA, hR), w')
        /\ Z.of_nat (length hA) = 10%Z /\ Z.of_nat (length hR) = 10%Z)
  /\ (exists Hf hA hR w',
        Gradient.gradient_bandit stub_env 10 (/ 10) true world0
        = (inr (Hf, hA, hR), w')
        /\ Z.of_nat (length hA) = 10%Z /\ Z.of_nat (length hR) = 10%Z).
Proof.
  assert (Hk : (1 <= size stub_env)%Z) by (simpl; lia).
  destruct (selection_count_conservation stub_env 10 2 (/ 10) (/ 10) true
              world0 7 Hk) as (Hu & _ & _ & Hub & Hsg).
  split; [exact Hu|]. split.
  - apply Hub. simpl. lia.
  - apply Hsg. lia.
Defined.

(** C10. Over the reals the preferences of [gradient_bandit] sum to 0 after
    every iteration: in each iteration the amount added to the chosen
    action, [alpha * (r - b) * (1 - pi[A])], is the total of the amounts
    [alpha * (r - b) * pi[a]] taken from all the other actions. *)
Theorem preference_sum_invariant (env : BanditEnv) (alpha : R)
  (baseline : bool) (w : world) (t : nat) :
  (1 <= size env)%Z ->
  exists st w1 st' w2 pi A r,
    Gradient.gradient_after env alpha baseline t w = (inr st, w1)
    /\ np_sum (Gradient.H st) = 0
    /\ Gradient.gradient_after env alpha baseline (S t) w = (inr st', w2)
    /\ np_sum (Gradient.H st') = 0
    /\ Gradient.softmax (Gradient.H st) = inr pi
    /\ np_sum pi = 1
    /\ Gradient.hist_A st' = Gradient.hist_A st ++ [A]
    /\ Gradient.hist_R st' = Gradient.hist_R st ++ [r]
    /\ let b := if baseline then Gradient.R_ st else 0 in
       alpha * (r - b) * (1 - nth A pi 0)
       = np_sum (upd (map (fun p => alpha * (r - b) * p) pi) A 0).
Proof.
  intros Hk.
  destruct (gradient_after_inv env alpha baseline w t Hk)
    as (st & w1 & E & Hinv).
  assert (Hk' : (1 <= arms env)%nat) by (unfold arms; lia).
  assert (HlH : length (Gradient.H st) = arms env)
    by (destruct Hinv; assumption).
  destruct (gradient_body_spec env alpha baseline t st w1 Hk' HlH)
    as (pi & A & Epi & Hlpi & Hspi & HA & Ebody).
  cbv zeta in Ebody.
  destruct (gradient_body_inv env alpha baseline w t t st w1 Hk' Hinv)
    as (st' & w2 & Ebody' & Hinv').
  rewrite Ebody in Ebody'. injection Ebody' as Est Ew. subst st' w2.
  eexists st, w1, _, _, pi, A, (reward env (length (calls w1)) A).
  split; [exact E|]. split; [destruct Hinv; assumption|]. split.
  { rewrite gradient_after_S, (bind_ok _ _ _ _ _ E). exact Ebody. }
  split; [destruct Hinv'; assumption|].
  split; [exact Epi|]. split; [exact Hspi|].
  split; [reflexivity|]. split; [reflexivity|].
  cbv zeta. rewrite np_sum_upd by (rewrite length_map; lia).
  rewrite np_sum_map_scale, Hspi.
  set (d := alpha * (reward env (length (calls w1)) A
                     - (if baseline then Gradient.R_ st else 0))).
  rewrite (nth_indep (map (fun p => d * p) pi) 0 (d * 0))
    by (rewrite length_map; lia).
  rewrite (map_nth (fun p => d * p)). ring.
Qed.

Lemma preference_sum_invariant_witness :
  exists st w1 st' w2 pi A r,
    Gradient.gradient_after stub_env (/ 10) true 3 world0 = (inr st, w1)
    /\ np_sum (Gradient.H st) = 0
    /\ Gradient.gradient_after stub_env (/ 10) true 4 world0 = (inr st', w2)
    /\ np_sum (Gradient.H st') = 0
    /\ Gradient.softmax (Gradient.H st) = inr pi
    /\ np_sum pi = 1
    /\ Gradient.hist_A st' = Gradient.hist_A st ++ [A]
    /\ Gradient.hist_R st' = Gradient.hist_R st ++ [r]
    /\ let b := if true then Gradient.R_ st else 0 in
       / 10 * (r - b) * (1 - nth A pi 0)
       = np_sum (upd (map (fun p => / 10 * (r - b) * p) pi) A 0).
Proof.
  apply (preference_sum_invariant stub_env (/ 10) true world0 3).
  simpl. lia.
Defined.

End ConservationClaims.

(** * Further properties of the selectors *)

(** ** Traces of the runs *)

Lemma env_rewards_snoc (env : BanditEnv) (n : nat) (hA : list nat) (A : nat) :
  env_rewards env n (hA ++ [A])
  = env_rewards env n hA ++ [reward env (n + length hA) A].
Proof.
  revert n. induction hA as [|a hA IH]; intros n; simpl.
  - now rewrite Nat.add_0_r.
  - rewrite IH. now rewrite Nat.add_succ_comm.
Qed.

Lemma env_rewards_length (env : BanditEnv) (n : nat) (hA : list nat) :
  length (env_rewards env n hA) = length hA.
Proof.
  revert n. induction hA as [|a hA IH]; intros n; simpl; auto.
Qed.

Section TraceFacts.

Import UCB.

Variable env : BanditEnv.

(** One iteration of the bound loop, with what it does to the
    histories. *)
Lemma bound_body_trace (c : R) (w0 : world) (t : nat) st w :
  (1 <= arms env)%nat -> loop_inv (arms env) w0 t st w ->
  exists A st' w',
    bound_body env c t st w = (inr st', w')
    /\ loop_inv (arms env) w0 (S t) st' w'
    /\ hist_A st' = hist_A st ++ [A]
    /\ hist_R st' = hist_R st ++ [reward env (length (calls w)) A]
    /\ maximal (ucb_scores c t (Q st) (N st)) A.
Proof.
  intros Hk Hinv.
  assert (Hlen : length (ucb_scores c t (Q st) (N st)) = arms env).
  { rewrite ucb_scores_length; destruct Hinv; congruence. }
  assert (Hne : ucb_scores c t (Q st) (N st) <> []).
  { intros E. rewrite E in Hlen. simpl in Hlen. lia. }
  destruct (argmax_rand_maximal _ w Hne) as (A & EA & HA).
  assert (HAk : (A < arms env)%nat) by (destruct HA; lia).
  assert (Hinv' : loop_inv (arms env) w0 t st (advance w)).
  { destruct Hinv. constructor; auto. }
  destruct (observe_inv env _ _ _ _ _ A Hinv' HAk)
    as (st' & w' & E & Hinv2 & HhA & HhR & _).
  exists A, st', w'.
  split; [|split; [|split; [|split]]]; try assumption.
  unfold bound_body. now rewrite (bind_ok _ _ _ _ _ EA).
Qed.

(** One iteration of the loop of [simple_bandit]: which branch is taken,
    and what it does to the histories. *)
Lemma simple_body_trace (eps : R) (w0 : world) (t i : nat) st w :
  (1 <= arms env)%nat -> loop_inv (arms env) w0 t st w ->
  exists A st' w',
    simple_body env eps i st w = (inr st', w')
    /\ loop_inv (arms env) w0 (S t) st' w'
    /\ hist_A st' = hist_A st ++ [A]
    /\ hist_R st' = hist_R st ++ [reward env (length (calls w)) A]
    /\ (eps < rng w 0 -> maximal (Q st) A)
    /\ (~ eps < rng w 0 -> A = bucket (rng w 1) (arms env)).
Proof.
  intros Hk Hinv.
  assert (Hinv' : loop_inv (arms env) w0 t st (advance (advance w))).
  { destruct Hinv. constructor; auto. }
  assert (HA : exists A,
    (if Rlt_dec eps (rng w 0) then argmax_rand (Q st)
     else randint (size env)) (advance w) = (inr A, advance (advance w))
    /\ (A < arms env)%nat
    /\ (eps < rng w 0 -> maximal (Q st) A)
    /\ (~ eps < rng w 0 -> A = bucket (rng w 1) (arms env))).
  { destruct (Rlt_dec eps (rng w 0)) as [Hlt|Hge].
    - assert (Hne : Q st <> []).
      { destruct Hinv as [HQ]. intros E. rewrite E in HQ. simpl in HQ. lia. }
      destruct (argmax_rand_maximal _ (advance w) Hne) as (A & EA & HAm).
      exists A. split; [exact EA|]. split; [|split].
      + destruct HAm. destruct Hinv. lia.
      + intros _. exact HAm.
      + intros Hn. contradiction.
    - eexists. split; [|split; [|split]].
      + apply randint_spec. unfold arms in Hk. lia.
      + apply bucket_lt. exact Hk.
      + intros Hlt. contradiction.
      + intros _. reflexivity. }
  destruct HA as (A & EA & HAk & Hgreedy & Hrandom).
  destruct (observe_inv env _ _ _ _ _ A Hinv' HAk)
    as (st' & w' & E & Hinv2 & HhA & HhR & _).
  exists A, st', w'.
  split; [|split; [|split; [|split; [|split]]]]; try assumption.
  unfold simple_body.
  assert (Eu : random_sample w = (inr (uval (rng w 0)), advance w))
    by reflexivity.
  rewrite (bind_ok _ _ _ _ _ Eu), (bind_ok _ _ _ _ _ EA). exact E.
Qed.

(** Every prefix of a run of [ucb_bandit]: the invariant and the trace. *)
Lemma ucb_after_trace (c : R) (w : world) (t : nat) :
  (1 <= size env)%Z ->
  exists st w',
    ucb_after env c t w = (inr st, w')
    /\ loop_inv (arms env) w t st w'
    /\ hist_R st = env_rewards env (length (calls w)) (hist_A st).
Proof.
  intros Hk. induction t as [|t (st & w1 & E & Hinv & HhR)].
  - destruct (ucb_after_warm env c w 0) as (st & w' & E & Hinv & HhA & HhR);
      [lia | lia |].
    exists st, w'. split; [exact E|]. split; [exact Hinv|].
    now rewrite HhR, HhA.
  - assert (Hlen : length (calls w1) = (length (calls w) + t)%nat).
    { destruct Hinv as [_ _ HlA _ HC]. now rewrite HC, length_app, HlA. }
    assert (HlA : length (hist_A st) = t) by (destruct Hinv; assumption).
    destruct (Nat.lt_ge_cases t (arms env)) as [Hlt|Hge].
    + rewrite (ucb_after_S_warm env c t w Hlt), (bind_ok _ _ _ _ _ E).
      destruct (observe_inv env _ _ _ _ _ t Hinv Hlt)
        as (st' & w' & E' & Hinv' & HhA' & HhR' & _).
      exists st', w'. split; [exact E'|]. split; [exact Hinv'|].
      rewrite HhR', HhA', env_rewards_snoc, <- HhR, Hlen, HlA.
      reflexivity.
    + rewrite (ucb_after_S_bound env c t w Hge), (bind_ok _ _ _ _ _ E).
      destruct (bound_body_trace c w t st w1)
        as (A & st' & w' & E' & Hinv' & HhA' & HhR' & _);
        [unfold arms; lia | exact Hinv |].
      exists st', w'. split; [exact E'|]. split; [exact Hinv'|].
      rewrite HhR', HhA', env_rewards_snoc, <- HhR, Hlen, HlA.
      reflexivity.
Qed.

(** Every prefix of a run of [simple_bandit]: the invariant and the
    trace. *)
Lemma simple_after_trace (eps : R) (w : world) (t : nat) :
  (1 <= size env)%Z ->
  exists st w',
    simple_after env eps t w = (inr st, w')
    /\ loop_inv (arms env) w t st w'
    /\ hist_R st = env_rewards env (length (calls w)) (hist_A st).
Proof.
  intros Hk. induction t as [|t (st & w1 & E & Hinv & HhR)].
  - eexists. eexists. split; [|split; [apply init_inv |]].
    + unfold simple_after, simple_loop. simpl seq.
      rewrite (bind_ok _ _ _ _ _ (init_state_spec env w ltac:(lia))).
      reflexivity.
    + reflexivity.
  - assert (Hlen : length (calls w1) = (length (calls w) + t)%nat).
    { destruct Hinv as [_ _ HlA _ HC]. now rewrite HC, length_app, HlA. }
    assert (HlA : length (hist_A st) = t) by (destruct Hinv; assumption).
    rewrite simple_after_S, (bind_ok _ _ _ _ _ E).
    destruct (simple_body_trace eps w t t st w1)
      as (A & st' & w' & E' & Hinv' & HhA' & HhR' & _);
      [unfold arms; lia | exact Hinv |].
    exists st', w'. split; [exact E'|]. split; [exact Hinv'|].
    rewrite HhR', HhA', env_rewards_snoc, <- HhR, Hlen, HlA. reflexivity.
Qed.

End TraceFacts.

(** ** Weighted choice as inversion of the cumulative sums *)

Lemma np_sum_nonneg (l : list R) :
  Forall (fun v => 0 <= v) l -> 0 <= np_sum l.
Proof.
  induction 1 as [|a l Ha _ IH].
  - unfold np_sum. simpl. lra.
  - rewrite np_sum_cons. lra.
Qed.

Lemma Forall_firstn_R (P : R -> Prop) (l : list R) (n : nat) :
  Forall P l -> Forall P (firstn n l).
Proof.
  intros HF. revert n. induction HF as [|a l Ha _ IH]; intros [|n]; simpl;
    constructor; auto.
Qed.

Lemma np_sum_firstn_S (p : list R) (i : nat) :
  (i < length p)%nat ->
  np_sum (firstn (S i) p) = np_sum (firstn i p) + nth i p 0.
Proof.
  revert i. induction p as [|x p IH]; intros i Hi; simpl in Hi; [lia|].
  destruct i as [|i].
  - simpl. unfold np_sum. simpl. ring.
  - change (firstn (S (S i)) (x :: p)) with (x :: firstn (S i) p).
    change (firstn (S i) (x :: p)) with (x :: firstn i p).
    rewrite !np_sum_cons, IH by lia. simpl nth. ring.
Qed.

(** On cumulative sums of non-negative weights the search returns the
    position whose cell contains the variate. *)
Lemma searchsorted_cumsum_cell (p : list R) (acc u : R) (i : nat) :
  Forall (fun v => 0 <= v) p -> (i < length p)%nat ->
  acc + np_sum (firstn i p) <= u < acc + np_sum (firstn (S i) p) ->
  searchsorted_right (cumsum_from acc p) u = i.
Proof.
  intros HF. revert acc i.
  induction HF as [|x p Hx HF IH]; intros acc i Hi Hu; simpl in Hi; [lia|].
  simpl cumsum_from. simpl searchsorted_right.
  destruct i as [|i].
  - simpl firstn in Hu. unfold np_sum in Hu. simpl in Hu.
    destruct (Rlt_dec u (acc + x)) as [_|Hn]; [reflexivity | lra].
  - change (firstn (S (S i)) (x :: p)) with (x :: firstn (S i) p) in Hu.
    change (firstn (S i) (x :: p)) with (x :: firstn i p) in Hu.
    rewrite !np_sum_cons in Hu.
    assert (0 <= np_sum (firstn i p)).
    { apply np_sum_nonneg. now apply Forall_firstn_R. }
    destruct (Rlt_dec u (acc + x)) as [Hlt|_]; [lra|].
    f_equal. apply IH; [lia | lra].
Qed.

(** Under a distribution [p] on [0 .. k-1], position [a] is drawn exactly
    on the cell of length [p[a]] that follows the cells of the positions
    before it. *)
Lemma random_choice_p_cell (k : nat) (p : list R) (w : world) (a : nat) :
  length p = k -> Forall (fun v => 0 < v <= 1) p -> np_sum p = 1 ->
  (a < k)%nat ->
  np_sum (firstn a p) <= rng w 0 < np_sum (firstn a p) + nth a p 0 ->
  random_choice_p (seq 0 k) p w = (inr a, advance w).
Proof.
  intros Hlen HF Hsum Ha Hcell.
  assert (Hp : p <> []) by (intros E; rewrite E in Hlen; simpl in Hlen; lia).
  assert (HF0 : Forall (fun v => 0 <= v) p).
  { eapply Forall_impl; [|exact HF]. simpl. intros; lra. }
  unfold random_choice_p. rewrite length_seq, Hlen, Nat.eqb_refl.
  destruct (Nat.eqb_spec k 0) as [E0|_]; [lia|].
  rewrite (all_nonneg_true _ HF0).
  destruct (Rlt_dec choice_atol (Rabs (np_sum p - 1))) as [Hbad|_].
  { rewrite Hsum in Hbad. replace (1 - 1) with 0 in Hbad by ring.
    rewrite Rabs_R0 in Hbad. pose proof choice_atol_pos. lra. }
  cbn [negb]. cbv zeta.
  assert (Hlast : last (cumsum p) 0 = 1).
  { unfold cumsum. rewrite cumsum_from_last by exact Hp. rewrite Hsum. ring. }
  rewrite Hlast.
  rewrite (map_ext (fun x => x / 1) (fun x => x)) by (intros; field).
  rewrite map_id.
  unfold bind, random_sample, cumsum.
  rewrite (searchsorted_cumsum_cell p 0 (rng w 0) a HF0);
    [| lia | rewrite np_sum_firstn_S by lia; lra].
  now rewrite (nth_error_seq_0 _ _ Ha).
Qed.

(** ** Traces of the gradient bandit *)

Section GradientTraceFacts.

Import Gradient.

Variable env : BanditEnv.
Variable alpha : R.
Variable baseline : bool.

(** One iteration, with the policy it draws from and the draw itself. *)
Lemma gradient_body_full (i : nat) st (w : world) :
  (1 <= arms env)%nat -> length (H st) = arms env ->
  exists pi A,
    softmax (H st) = inr pi
    /\ length pi = arms env
    /\ Forall (fun v => 0 < v <= 1) pi
    /\ np_sum pi = 1
    /\ random_choice_p (seq 0 (arms env)) pi w = (inr A, advance w)
    /\ (A < arms env)%nat
    /\ gradient_body env alpha baseline i st w
       = (inr {| H := upd (zip_with
                             (fun h p =>
                                h - alpha * (reward env (length (calls w)) A
                                             - R_ st) * p)
                             (H st) pi)
                          A (nth A (H st) 0
                             + alpha * (reward env (length (calls w)) A
                                        - R_ st) * (1 - nth A pi 0));
                 R_ := if baseline
                       then R_ st
                            + 1 / (N_ st + 1)
                              * (reward env (length (calls w)) A - R_ st)
                       else R_ st;
                 N_ := if baseline then N_ st + 1 else N_ st;
                 hist_A := hist_A st ++ [A];
                 hist_R := hist_R st ++ [reward env (length (calls w)) A] |},
          {| rng := rng (advance w); calls := calls w ++ [A] |}).
Proof.
  intros Hk HlenH.
  assert (Hne : H st <> []).
  { intros E. rewrite E in HlenH. simpl in HlenH. lia. }
  destruct (softmax_spec (H st) Hne) as (pi & Epi & Hlpi & HFpi & Hspi).
  rewrite HlenH in Hlpi.
  destruct (random_choice_p_spec (arms env) pi w Hk Hlpi HFpi Hspi)
    as (A & EA & HA).
  exists pi, A. repeat (split; [assumption|]).
  unfold gradient_body.
  rewrite Epi. unfold lift at 1. unfold bind at 1.
  rewrite py_range_0. fold (arms env).
  rewrite (bind_ok _ _ _ _ _ EA).
  unfold step, bind, lift, ret. cbn [calls rng advance].
  rewrite getitem_ok by lia. rewrite getitem_ok by lia.
  rewrite setitem_ok by (rewrite zip_with_length; lia).
  destruct baseline; reflexivity.
Qed.

(** Every prefix of a run of [gradient_bandit]: the invariant and the
    trace. *)
Lemma gradient_after_trace (w : world) (t : nat) :
  (1 <= size env)%Z ->
  exists st w',
    gradient_after env alpha baseline t w = (inr st, w')
    /\ grad_inv baseline (arms env) w t st w'
    /\ faithful_trace env w (hist_A st) (hist_R st) w'.
Proof.
  intros Hk. assert (Hk' : (1 <= arms env)%nat) by (unfold arms; lia).
  induction t as [|t (st & w1 & E & Hinv & (HC & HF & HhR))].
  - eexists. eexists. split; [|split; [apply gradient_init_inv |]].
    + unfold gradient_after, gradient_loop. simpl seq.
      rewrite (bind_ok _ _ _ _ _ (gradient_init_spec env w ltac:(lia))).
      reflexivity.
    + split; [now rewrite app_nil_r | split; [constructor | reflexivity]].
  - assert (HlH : length (H st) = arms env) by (destruct Hinv; assumption).
    assert (HlA : length (hist_A st) = t) by (destruct Hinv; assumption).
    destruct (gradient_body_full t st w1 Hk' HlH)
      as (pi & A & _ & _ & _ & _ & _ & HA & Ebody).
    destruct (gradient_body_inv env alpha baseline w t t st w1 Hk' Hinv)
      as (st' & w2 & Ebody' & Hinv').
    rewrite Ebody in Ebody'. injection Ebody' as Est Ew. subst st' w2.
    rewrite gradient_after_S, (bind_ok _ _ _ _ _ E), Ebody.
    eexists. eexists. split; [reflexivity|]. split; [exact Hinv'|].
    cbn [hist_A hist_R calls]. split; [|split].
    + rewrite HC. now rewrite app_assoc.
    + apply Forall_app. split; [exact HF|]. now constructor.
    + rewrite env_rewards_snoc, <- HhR, HC, length_app, HlA. reflexivity.
Qed.

End GradientTraceFacts.

(** ** [softmax] and [argmax_rand] as functions *)

Lemma np_sum_repeat (c : R) (n : nat) : np_sum (repeat c n) = INR n * c.
Proof.
  induction n as [|n IH].
  - unfold np_sum. simpl. ring.
  - change (repeat c (S n)) with (c :: repeat c n).
    rewrite np_sum_cons, IH, S_INR. ring.
Qed.

Lemma np_sum_exp_pos (x : list R) : x <> [] -> 0 < np_sum (map exp x).
Proof.
  intros Hne. destruct x as [|a l]; [congruence|].
  simpl map. rewrite np_sum_cons.
  assert (0 <= np_sum (map exp l)).
  { apply np_sum_nonneg. apply Forall_forall. intros e He.
    apply in_map_iff in He as (v & <- & _). left. apply exp_pos. }
  pose proof (exp_pos a). lra.
Qed.

Lemma np_sum_exp_shift (x : list R) (m : R) :
  np_sum (map (fun v => exp (v - m)) x) = np_sum (map exp x) / exp m.
Proof.
  pose proof (exp_pos m) as Hm.
  induction x as [|a l IH]; simpl map.
  - unfold np_sum, Rdiv. simpl. ring.
  - rewrite !np_sum_cons, IH. unfold Rminus. rewrite exp_plus, exp_Ropp.
    field. lra.
Qed.

Lemma fold_max_shift (l : list R) (a c : R) :
  fold_left Rmax (map (fun v => v + c) l) (a + c) = fold_left Rmax l a + c.
Proof.
  revert a. induction l as [|b l IH]; intros a; simpl.
  - reflexivity.
  - rewrite <- IH. f_equal. unfold Rmax.
    destruct (Rle_dec (a + c) (b + c)), (Rle_dec a b); lra.
Qed.

Lemma fold_max_repeat (c : R) (n : nat) : fold_left Rmax (repeat c n) c = c.
Proof.
  induction n as [|n IH]; simpl; [reflexivity|].
  rewrite Rmax_left by lra. exact IH.
Qed.

Lemma nth_map_in_range (f : R -> R) (l : list R) (i : nat) :
  (i < length l)%nat -> nth i (map f l) 0 = f (nth i l 0).
Proof.
  intros Hi. rewrite (nth_indep (map f l) 0 (f 0)) by (now rewrite length_map).
  apply map_nth.
Qed.

(** [softmax] of [k] copies of one value. *)
Lemma softmax_repeat (c : R) (k : nat) :
  (1 <= k)%nat -> Gradient.softmax (repeat c k) = inr (repeat (/ INR k) k).
Proof.
  intros Hk. destruct k as [|k]; [lia|].
  unfold Gradient.softmax. change (repeat c (S k)) with (c :: repeat c k).
  simpl np_max. rewrite fold_max_repeat. cbv zeta.
  change (c :: repeat c k) with (repeat c (S k)).
  unfold Gradient.softmax_exps. rewrite !map_repeat, np_sum_repeat.
  replace (c - c) with 0 by ring. rewrite exp_0. do 2 f_equal.
  assert (0 < INR (S k)) by (apply lt_0_INR; lia).
  field. lra.
Qed.

Section FunctionExtras.

Import UCB Gradient.

(** X1. The implementation of [softmax], which shifts by the maximum
    before exponentiating, computes the defining formula of the notebook:
    entry [i] is [exp(x[i]) / sum_j exp(x[j])]. *)
Theorem softmax_textbook_formula (x : list R) :
  x <> [] ->
  softmax x = inr (map (fun v => exp v / np_sum (map exp x)) x).
Proof.
  intros Hne. destruct (np_max_spec x Hne) as (mx & Emx & _ & _).
  unfold softmax. rewrite Emx. cbv zeta. f_equal.
  unfold softmax_exps. rewrite map_map, np_sum_exp_shift.
  apply map_ext. intros v.
  pose proof (exp_pos mx). pose proof (np_sum_exp_pos x Hne).
  unfold Rminus. rewrite exp_plus, exp_Ropp. field. lra.
Qed.

Lemma softmax_textbook_formula_witness :
  softmax [1000; 0; -1000]
  = inr (map (fun v => exp v / np_sum (map exp [1000; 0; -1000]))
             [1000; 0; -1000]).
Proof.
  apply (softmax_textbook_formula [1000; 0; -1000]). discriminate.
Defined.

(** X2. [softmax] does not change when the same constant is added to every
    entry of its argument (an empty argument is refused either way). *)
Theorem softmax_shift_invariant (x : list R) (c : R) :
  softmax (map (fun v => v + c) x) = softmax x.
Proof.
  destruct x as [|a l]; [reflexivity|].
  unfold softmax. simpl np_max. rewrite fold_max_shift. cbv zeta.
  assert (E : softmax_exps (map (fun v => v + c) (a :: l))
                           (fold_left Rmax l a + c)
              = softmax_exps (a :: l) (fold_left Rmax l a)).
  { unfold softmax_exps. rewrite map_map. apply map_ext. intros v.
    f_equal. ring. }
  now rewrite E.
Qed.

(** X3. [softmax] preserves the order of the entries: a larger preference
    never gets a smaller probability. *)
Theorem softmax_monotone (x p : list R) (i j : nat) :
  softmax x = inr p ->
  (i < length x)%nat -> (j < length x)%nat ->
  nth i x 0 <= nth j x 0 ->
  nth i p 0 <= nth j p 0.
Proof.
  intros E Hi Hj Hle.
  assert (Hne : x <> []) by (intros E0; rewrite E0 in Hi; simpl in Hi; lia).
  destruct (np_max_spec x Hne) as (mx & Emx & Hin & Hub).
  unfold softmax in E. rewrite Emx in E. cbv zeta in E. injection E as <-.
  pose proof (softmax_exps_sum x mx Hin Hub) as [Hs _].
  assert (Hl : length (softmax_exps x mx) = length x)
    by (unfold softmax_exps; apply length_map).
  rewrite (nth_map_in_range _ (softmax_exps x mx) i)
    by (rewrite Hl; exact Hi).
  rewrite (nth_map_in_range _ (softmax_exps x mx) j)
    by (rewrite Hl; exact Hj).
  unfold softmax_exps in *.
  rewrite (nth_map_in_range _ x i), (nth_map_in_range _ x j) by assumption.
  apply Rmult_le_compat_r; [left; apply Rinv_0_lt_compat; lra|].
  destruct Hle as [Hlt | ->]; [left; apply exp_increasing; lra | lra].
Qed.

Lemma softmax_monotone_witness :
  exists p, softmax [1; 3] = inr p /\ nth 0 p 0 <= nth 1 p 0.
Proof.
  destruct (softmax_spec [1; 3]) as (p & E & _); [discriminate|].
  exists p. split; [exact E|].
  apply (softmax_monotone [1; 3] p 0 1 E); simpl; try lia; lra.
Defined.

(** X4. On an array whose entries are all equal [softmax] is the uniform
    distribution; this is the policy of the first iteration of
    [gradient_bandit], whose preferences start at zero. *)
Theorem softmax_constant_uniform (x : list R) (c : R) :
  x <> [] -> (forall v, In v x -> v = c) ->
  softmax x = inr (repeat (/ INR (length x)) (length x)).
Proof.
  intros Hne Hall.
  assert (E : x = repeat c (length x)).
  { apply Forall_eq_repeat. apply Forall_forall. intros v Hv.
    symmetry. now apply Hall. }
  rewrite E at 1. apply softmax_repeat.
  destruct x; [congruence | simpl; lia].
Qed.

Lemma softmax_constant_uniform_witness :
  softmax [3; 3; 3; 3]
  = inr (repeat (/ INR (length [3; 3; 3; 3])) (length [3; 3; 3; 3])).
Proof.
  apply (softmax_constant_uniform [3; 3; 3; 3] 3).
  - discriminate.
  - intros v [<-|[<-|[<-|[<-|[]]]]]; reflexivity.
Defined.

(** X5. When the maximum of the array is reached at one position only,
    [argmax_rand] returns this position whatever the generator yields, and
    calls nothing of the environment. *)
Theorem argmax_rand_unique_maximum (arr : list R) (i : nat) (w : world) :
  maximal arr i -> (forall j, maximal arr j -> j = i) ->
  exists w', argmax_rand arr w = (inr i, w') /\ calls w' = calls w.
Proof.
  intros Hi Huniq.
  assert (Hne : arr <> []).
  { destruct Hi as [Hlt _]. intros E. rewrite E in Hlt. simpl in Hlt. lia. }
  destruct (argmax_rand_maximal arr w Hne) as (i' & E & Hi').
  exists (advance w). split; [|reflexivity].
  now rewrite E, (Huniq i' Hi').
Qed.

Lemma argmax_rand_unique_maximum_witness :
  exists w', argmax_rand [1; 7; 3] world0 = (inr 1%nat, w')
             /\ calls w' = calls world0.
Proof.
  apply (argmax_rand_unique_maximum [1; 7; 3] 1 world0).
  - split; [simpl; lia|]. intros [|[|[|j]]] Hj; simpl in *; try lra; lia.
  - intros [|[|[|j]]] [Hlt Hj]; simpl in Hlt; try lia.
    + specialize (Hj 1%nat ltac:(simpl; lia)). simpl in Hj. lra.
    + specialize (Hj 1%nat ltac:(simpl; lia)). simpl in Hj. lra.
Defined.

End FunctionExtras.

(** ** Counts, bounds and branches in [ucb_bandit] and [simple_bandit] *)

Lemma rewards_of_count (a : nat) (hA : list nat) (hR : list R) :
  length hA = length hR ->
  length (rewards_of a hA hR) = count_occ Nat.eq_dec hA a.
Proof.
  revert hR. induction hA as [|x hA IH]; intros [|y hR] E; simpl in *;
    try discriminate; [reflexivity|].
  destruct (Nat.eq_dec x a) as [Heq|Hne].
  - rewrite Heq, Nat.eqb_refl. simpl. now rewrite IH by lia.
  - destruct (Nat.eqb_spec x a); [contradiction|]. apply IH. lia.
Qed.

Lemma rewards_of_env_Forall (env : BanditEnv) (P : R -> Prop) (a n : nat)
  (hA : list nat) :
  (forall m, P (reward env m a)) ->
  Forall P (rewards_of a hA (env_rewards env n hA)).
Proof.
  intros HP. revert n. induction hA as [|x hA IH]; intros n; simpl.
  - constructor.
  - destruct (Nat.eqb_spec x a) as [->|Hne]; [constructor|]; auto.
Qed.

Lemma np_sum_bounds (lo hi : R) (l : list R) :
  Forall (fun v => lo <= v <= hi) l ->
  INR (length l) * lo <= np_sum l <= INR (length l) * hi.
Proof.
  induction 1 as [|a l Ha _ IH].
  - unfold np_sum. simpl. lra.
  - rewrite np_sum_cons. simpl length. rewrite S_INR. lra.
Qed.

(** The mean of a non-empty list lies between any bounds of its
    entries. *)
Lemma mean_bounds (lo hi : R) (l : list R) :
  l <> [] -> Forall (fun v => lo <= v <= hi) l -> lo <= mean l <= hi.
Proof.
  intros Hne HF. pose proof (np_sum_bounds lo hi l HF) as [Hlo Hhi].
  assert (Hn : 0 < INR (length l)).
  { apply lt_0_INR. destruct l; [congruence | simpl; lia]. }
  unfold mean. split.
  - apply Rmult_le_reg_r with (r := INR (length l)); [exact Hn|].
    unfold Rdiv. rewrite Rmult_assoc, Rinv_l by lra. lra.
  - apply Rmult_le_reg_r with (r := INR (length l)); [exact Hn|].
    unfold Rdiv. rewrite Rmult_assoc, Rinv_l by lra. lra.
Qed.

Section ValueExtras.

Import UCB.

Lemma loop_inv_trace (env : BanditEnv) (w : world) (t : nat) st w' :
  loop_inv (arms env) w t st w' ->
  hist_R st = env_rewards env (length (calls w)) (hist_A st) ->
  faithful_trace env w (hist_A st) (hist_R st) w'.
Proof.
  intros [_ _ _ _ HC _ HF _ _] HhR. now split; [|split].
Qed.

(** X6. At every point of a run of [ucb_bandit] and of [simple_bandit],
    [env.step] has been called exactly once per recorded step, always with
    an action of [range(env.size)]; [hist_A] is the sequence of the actions
    passed and [hist_R] the sequence of the values returned, in order. *)
Theorem value_selectors_trace (env : BanditEnv) (c eps : R) (w : world)
  (t : nat) :
  (1 <= size env)%Z ->
  (exists st w', ucb_after env c t w = (inr st, w')
     /\ faithful_trace env w (hist_A st) (hist_R st) w')
  /\ (exists st w', simple_after env eps t w = (inr st, w')
        /\ faithful_trace env w (hist_A st) (hist_R st) w').
Proof.
  intros Hk. split.
  - destruct (ucb_after_trace env c w t Hk) as (st & w' & E & Hinv & HhR).
    exists st, w'. split; [exact E|]. eapply loop_inv_trace; eassumption.
  - destruct (simple_after_trace env eps w t Hk)
      as (st & w' & E & Hinv & HhR).
    exists st, w'. split; [exact E|]. eapply loop_inv_trace; eassumption.
Qed.

Lemma value_selectors_trace_witness :
  (exists st w', ucb_after stub_env 2 6 world0 = (inr st, w')
     /\ faithful_trace stub_env world0 (hist_A st) (hist_R st) w')
  /\ (exists st w', simple_after stub_env (/ 10) 6 world0 = (inr st, w')
        /\ faithful_trace stub_env world0 (hist_A st) (hist_R st) w').
Proof.
  apply (value_selectors_trace stub_env 2 (/ 10) world0 6). simpl. lia.
Defined.

(** X7. At every point of a run of [ucb_bandit] and of [simple_bandit],
    [N[a]] is the number of times action [a] occurs in [hist_A]. *)
Theorem counts_are_occurrences (env : BanditEnv) (c eps : R) (w : world)
  (t : nat) :
  (1 <= size env)%Z ->
  (exists st w', ucb_after env c t w = (inr st, w')
     /\ length (N st) = arms env
     /\ forall a, (a < arms env)%nat ->
          nth a (N st) 0 = INR (count_occ Nat.eq_dec (hist_A st) a))
  /\ (exists st w', simple_after env eps t w = (inr st, w')
        /\ length (N st) = arms env
        /\ forall a, (a < arms env)%nat ->
             nth a (N st) 0 = INR (count_occ Nat.eq_dec (hist_A st) a)).
Proof.
  intros Hk. split.
  - destruct (ucb_after_inv env c w t Hk)
      as (st & w' & E & [_ HlN HlA HlR _ _ _ Hcnt _]).
    exists st, w'. split; [exact E|]. split; [exact HlN|].
    intros a Ha. rewrite (Hcnt a Ha), rewards_of_count by congruence.
    reflexivity.
  - destruct (simple_after_inv env eps w t Hk)
      as (st & w' & E & [_ HlN HlA HlR _ _ _ Hcnt _]).
    exists st, w'. split; [exact E|]. split; [exact HlN|].
    intros a Ha. rewrite (Hcnt a Ha), rewards_of_count by congruence.
    reflexivity.
Qed.

Lemma counts_are_occurrences_witness :
  (exists st w', ucb_after stub_env 2 6 world0 = (inr st, w')
     /\ length (N st) = arms stub_env
     /\ forall a, (a < arms stub_env)%nat ->
          nth a (N st) 0 = INR (count_occ Nat.eq_dec (hist_A st) a))
  /\ (exists st w', simple_after stub_env (/ 10) 6 world0 = (inr st, w')
        /\ length (N st) = arms stub_env
        /\ forall a, (a < arms stub_env)%nat ->
             nth a (N st) 0 = INR (count_occ Nat.eq_dec (hist_A st) a)).
Proof.
  apply (counts_are_occurrences stub_env 2 (/ 10) world0 6). simpl. lia.
Defined.

Lemma loop_inv_bounds (env : BanditEnv) (lo hi : nat -> R) (w : world)
  (t : nat) st w' :
  (forall n a, lo a <= reward env n a <= hi a) ->
  loop_inv (arms env) w t st w' ->
  hist_R st = env_rewards env (length (calls w)) (hist_A st) ->
  forall a, (a < arms env)%nat -> In a (hist_A st) ->
            lo a <= nth a (Q st) 0 <= hi a.
Proof.
  intros Hb [_ _ HlA HlR _ _ _ _ Hmean] HhR a Ha Hin.
  rewrite (Hmean a Ha). apply mean_bounds.
  - apply rewards_of_selected; [congruence | exact Hin].
  - rewrite HhR. apply rewards_of_env_Forall. intros m. apply Hb.
Qed.

(** X8. If the rewards of each action [a] always lie in [[lo a, hi a]],
    then at every point of a run of [ucb_bandit] and of [simple_bandit] the
    estimate [Q[a]] of every action selected so far lies in [[lo a, hi a]].
    On an environment without noise ([lo = hi]) the estimate of a selected
    action is therefore its reward exactly. *)
Theorem estimates_within_reward_bounds (env : BanditEnv) (lo hi : nat -> R)
  (c eps : R) (w : world) (t : nat) :
  (1 <= size env)%Z ->
  (forall n a, lo a <= reward env n a <= hi a) ->
  (exists st w', ucb_after env c t w = (inr st, w')
     /\ forall a, (a < arms env)%nat -> In a (hist_A st) ->
                  lo a <= nth a (Q st) 0 <= hi a)
  /\ (exists st w', simple_after env eps t w = (inr st, w')
        /\ forall a, (a < arms env)%nat -> In a (hist_A st) ->
                     lo a <= nth a (Q st) 0 <= hi a).
Proof.
  intros Hk Hb. split.
  - destruct (ucb_after_trace env c w t Hk) as (st & w' & E & Hinv & HhR).
    exists st, w'. split; [exact E|]. eapply loop_inv_bounds; eassumption.
  - destruct (simple_after_trace env eps w t Hk)
      as (st & w' & E & Hinv & HhR).
    exists st, w'. split; [exact E|]. eapply loop_inv_bounds; eassumption.
Qed.

Lemma estimates_within_reward_bounds_witness :
  (exists st w', ucb_after stub_env 2 6 world0 = (inr st, w')
     /\ forall a, (a < arms stub_env)%nat -> In a (hist_A st) ->
          (if Nat.eqb a 0 then 1 else 0) <= nth a (Q st) 0
          <= (if Nat.eqb a 0 then 1 else 0))
  /\ (exists st w', simple_after stub_env (/ 10) 6 world0 = (inr st, w')
        /\ forall a, (a < arms stub_env)%nat -> In a (hist_A st) ->
             (if Nat.eqb a 0 then 1 else 0) <= nth a (Q st) 0
             <= (if Nat.eqb a 0 then 1 else 0)).
Proof.
  apply (estimates_within_reward_bounds stub_env
           (fun a => if Nat.eqb a 0 then 1 else 0)
           (fun a => if Nat.eqb a 0 then 1 else 0) 2 (/ 10) world0 6).
  - simpl. lia.
  - intros n a. simpl. lra.
Defined.

(** X9. With [c = 0] every iteration of the bound loop of [ucb_bandit] is
    greedy: the selected action has a maximal estimate [Q]. *)
Theorem ucb_zero_exploration_is_greedy (env : BanditEnv) (w : world)
  (t : nat) :
  (1 <= size env)%Z -> (arms env <= t)%nat ->
  exists st w1 st' w2 A,
    ucb_after env 0 t w = (inr st, w1)
    /\ ucb_after env 0 (S t) w = (inr st', w2)
    /\ hist_A st' = hist_A st ++ [A]
    /\ maximal (Q st) A.
Proof.
  intros Hk Ht.
  destruct (ucb_after_inv env 0 w t Hk) as (st & w1 & E & Hinv).
  destruct (bound_body_trace env 0 w t st w1)
    as (A & st' & w2 & E' & _ & HhA & _ & [HA Hmax]);
    [unfold arms; lia | exact Hinv |].
  assert (HlQ : length (Q st) = arms env) by (destruct Hinv; assumption).
  assert (HlN : length (N st) = arms env) by (destruct Hinv; assumption).
  assert (Hls : length (ucb_scores 0 t (Q st) (N st)) = arms env).
  { rewrite ucb_scores_length; congruence. }
  exists st, w1, st', w2, A. split; [exact E|]. split.
  { now rewrite (ucb_after_S_bound env 0 t w Ht), (bind_ok _ _ _ _ _ E). }
  split; [exact HhA|]. split; [lia|].
  intros j Hj. specialize (Hmax j ltac:(lia)).
  unfold ucb_scores in Hmax. rewrite !nth_zip_with in Hmax by lia. lra.
Qed.

Lemma ucb_zero_exploration_is_greedy_witness :
  exists st w1 st' w2 A,
    ucb_after stub_env 0 4 world0 = (inr st, w1)
    /\ ucb_after stub_env 0 5 world0 = (inr st', w2)
    /\ hist_A st' = hist_A st ++ [A]
    /\ maximal (Q st) A.
Proof.
  apply (ucb_zero_exploration_is_greedy stub_env world0 4).
  - simpl. lia.
  - unfold arms. simpl. lia.
Defined.

(** X10. An iteration of [simple_bandit] draws one variate [u] and is
    greedy exactly when [u > eps]; otherwise it takes the action
    [floor(u' * k)] of a second variate [u'], whatever [Q] holds.  Hence
    [eps >= 1] never exploits, [eps < 0] never explores, and with [eps = 0]
    the variate 0 still explores. *)
Theorem simple_bandit_branch (env : BanditEnv) (eps : R) (w : world)
  (t : nat) :
  (1 <= size env)%Z ->
  exists st w1 st' w2 A,
    simple_after env eps t w = (inr st, w1)
    /\ simple_after env eps (S t) w = (inr st', w2)
    /\ hist_A st' = hist_A st ++ [A]
    /\ (eps < rng w1 0 -> maximal (Q st) A)
    /\ (rng w1 0 <= eps -> A = bucket (rng w1 1) (arms env))
    /\ (1 <= eps -> A = bucket (rng w1 1) (arms env))
    /\ (eps < 0 -> maximal (Q st) A).
Proof.
  intros Hk.
  destruct (simple_after_inv env eps w t Hk) as (st & w1 & E & Hinv).
  destruct (simple_body_trace env eps w t t st w1)
    as (A & st' & w2 & E' & _ & HhA & _ & Hg & Hr);
    [unfold arms; lia | exact Hinv |].
  pose proof (uval_range (rng w1 0)) as Hu.
  exists st, w1, st', w2, A. split; [exact E|]. split.
  { now rewrite simple_after_S, (bind_ok _ _ _ _ _ E). }
  split; [exact HhA|]. split; [exact Hg|]. split; [|split].
  - intros Hle. apply Hr. lra.
  - intros Hle. apply Hr. lra.
  - intros Hlt. apply Hg. lra.
Qed.

Lemma simple_bandit_branch_witness :
  exists st w1 st' w2 A,
    simple_after stub_env 0 3 world0 = (inr st, w1)
    /\ simple_after stub_env 0 4 world0 = (inr st', w2)
    /\ hist_A st' = hist_A st ++ [A]
    /\ (0 < rng w1 0 -> maximal (Q st) A)
    /\ (rng w1 0 <= 0 -> A = bucket (rng w1 1) (arms stub_env))
    /\ (1 <= 0 -> A = bucket (rng w1 1) (arms stub_env))
    /\ (0 < 0 -> maximal (Q st) A).
Proof.
  apply (simple_bandit_branch stub_env 0 world0 3). simpl. lia.
Defined.

End ValueExtras.

(** ** Sampling, direction and bounds in [gradient_bandit] *)

Lemma env_rewards_Forall (env : BanditEnv) (P : R -> Prop) (n : nat)
  (hA : list nat) :
  (forall m a, P (reward env m a)) -> Forall P (env_rewards env n hA).
Proof.
  intros HP. revert n. induction hA as [|x hA IH]; intros n; simpl;
    constructor; auto.
Qed.

Lemma np_sum_firstn_repeat (c : R) (k a : nat) :
  (a <= k)%nat -> np_sum (firstn a (repeat c k)) = INR a * c.
Proof.
  revert a. induction k as [|k IH]; intros [|a] Ha; simpl firstn;
    try (unfold np_sum; simpl; ring); [lia|].
  rewrite np_sum_cons, IH by lia. rewrite S_INR. ring.
Qed.

Lemma Forall_nth_R (P : R -> Prop) (l : list R) (i : nat) :
  Forall P l -> (i < length l)%nat -> P (nth i l 0).
Proof.
  intros HF Hi. rewrite Forall_forall in HF. apply HF. now apply nth_In.
Qed.

Section GradientExtras.

Import Gradient.

(** X12. At every point of a run of [gradient_bandit], [env.step] has been
    called exactly once per recorded step, always with an action of
    [range(env.size)]; [hist_A] is the sequence of the actions passed and
    [hist_R] the sequence of the values returned, in order. *)
Theorem gradient_trace (env : BanditEnv) (alpha : R) (baseline : bool)
  (w : world) (t : nat) :
  (1 <= size env)%Z ->
  exists st w',
    gradient_after env alpha baseline t w = (inr st, w')
    /\ faithful_trace env w (hist_A st) (hist_R st) w'.
Proof.
  intros Hk.
  destruct (gradient_after_trace env alpha baseline w t Hk)
    as (st & w' & E & _ & Htr).
  exists st, w'. split; [exact E | exact Htr].
Qed.

Lemma gradient_trace_witness :
  exists st w',
    gradient_after stub_env (/ 10) true 6 world0 = (inr st, w')
    /\ faithful_trace stub_env world0 (hist_A st) (hist_R st) w'.
Proof.
  apply (gradient_trace stub_env (/ 10) true world0 6). simpl. lia.
Defined.

(** X13. Every iteration of [gradient_bandit] selects action [a] exactly
    when the variate it draws for the weighted choice falls in the cell
    [[pi[0] + ... + pi[a-1], pi[0] + ... + pi[a])] of the policy
    [pi = softmax(H)]: each action is drawn with probability [pi[a]]. *)
Theorem gradient_draws_from_policy (env : BanditEnv) (alpha : R)
  (baseline : bool) (w : world) (t : nat) :
  (1 <= size env)%Z ->
  exists st w1 pi,
    gradient_after env alpha baseline t w = (inr st, w1)
    /\ softmax (H st) = inr pi
    /\ length pi = arms env
    /\ np_sum pi = 1
    /\ forall a, (a < arms env)%nat ->
         np_sum (firstn a pi) <= rng w1 0
                               < np_sum (firstn a pi) + nth a pi 0 ->
         exists st' w2,
           gradient_after env alpha baseline (S t) w = (inr st', w2)
           /\ hist_A st' = hist_A st ++ [a].
Proof.
  intros Hk. assert (Hk' : (1 <= arms env)%nat) by (unfold arms; lia).
  destruct (gradient_after_inv env alpha baseline w t Hk)
    as (st & w1 & E & Hinv).
  assert (HlH : length (H st) = arms env) by (destruct Hinv; assumption).
  destruct (gradient_body_full env alpha baseline t st w1 Hk' HlH)
    as (pi & A & Epi & Hlpi & HFpi & Hspi & EA & HA & Ebody).
  exists st, w1, pi. split; [exact E|].
  split; [exact Epi|]. split; [exact Hlpi|]. split; [exact Hspi|].
  intros a Ha Hcell.
  rewrite (random_choice_p_cell (arms env) pi w1 a Hlpi HFpi Hspi Ha Hcell)
    in EA.
  injection EA as <-.
  eexists. eexists. split.
  - rewrite gradient_after_S, (bind_ok _ _ _ _ _ E). exact Ebody.
  - reflexivity.
Qed.

Lemma gradient_draws_from_policy_witness :
  exists st w1 pi,
    gradient_after stub_env (/ 10) true 3 world0 = (inr st, w1)
    /\ softmax (H st) = inr pi
    /\ length pi = arms stub_env
    /\ np_sum pi = 1
    /\ forall a, (a < arms stub_env)%nat ->
         np_sum (firstn a pi) <= rng w1 0
                               < np_sum (firstn a pi) + nth a pi 0 ->
         exists st' w2,
           gradient_after stub_env (/ 10) true 4 world0 = (inr st', w2)
           /\ hist_A st' = hist_A st ++ [a].
Proof.
  apply (gradient_draws_from_policy stub_env (/ 10) true world0 3).
  simpl. lia.
Defined.

(** X14. The first action of [gradient_bandit] is drawn uniformly: with
    [k] actions it is [a] exactly when the first variate lies in
    [[a/k, (a+1)/k)]. *)
Theorem gradient_first_draw_uniform (env : BanditEnv) (alpha : R)
  (baseline : bool) (w : world) (a : nat) :
  (1 <= size env)%Z -> (a < arms env)%nat ->
  INR a / INR (arms env) <= rng w 0 < (INR a + 1) / INR (arms env) ->
  exists st w',
    gradient_after env alpha baseline 1 w = (inr st, w')
    /\ hist_A st = [a].
Proof.
  intros Hk Ha Hcell.
  assert (Hk' : (1 <= arms env)%nat) by (unfold arms; lia).
  assert (E0 : gradient_after env alpha baseline 0 w
               = (inr {| H := repeat 0 (arms env); R_ := 0; N_ := 0;
                         hist_A := []; hist_R := [] |}, w)).
  { unfold gradient_after, gradient_loop. simpl seq.
    now rewrite (bind_ok _ _ _ _ _ (gradient_init_spec env w ltac:(lia))). }
  set (st0 := {| H := repeat 0 (arms env); R_ := 0; N_ := 0;
                 hist_A := []; hist_R := [] |}) in *.
  assert (HlH : length (H st0) = arms env) by apply repeat_length.
  destruct (gradient_body_full env alpha baseline 0 st0 w Hk' HlH)
    as (pi & A & Epi & Hlpi & HFpi & Hspi & EA & HA & Ebody).
  assert (Hpi : pi = repeat (/ INR (arms env)) (arms env)).
  { cbn [H st0] in Epi. rewrite (softmax_repeat 0 _ Hk') in Epi.
    now injection Epi. }
  assert (Hn : 0 < INR (arms env)) by (apply lt_0_INR; lia).
  rewrite (random_choice_p_cell (arms env) pi w a Hlpi HFpi Hspi Ha) in EA.
  - injection EA as <-. eexists. eexists. split.
    + rewrite gradient_after_S, (bind_ok _ _ _ _ _ E0). exact Ebody.
    + reflexivity.
  - rewrite Hpi, np_sum_firstn_repeat by lia.
    rewrite nth_repeat_lt by exact Ha.
    unfold Rdiv in Hcell. lra.
Qed.

Lemma gradient_first_draw_uniform_witness :
  exists st w',
    gradient_after stub_env (/ 10) true 1 world0 = (inr st, w')
    /\ hist_A st = [0%nat].
Proof.
  apply (gradient_first_draw_uniform stub_env (/ 10) true world0 0).
  - simpl. lia.
  - unfold arms. simpl. lia.
  - unfold arms. simpl. lra.
Defined.

(** X15. With a step size [alpha >= 0], an iteration of [gradient_bandit]
    whose reward is at least the running baseline [R_] of the state before
    it (0 when the flag is off) does not lower the preference of the chosen
    action and does not raise any other; a reward at most the baseline does
    the opposite. *)
Theorem gradient_preference_direction (env : BanditEnv) (alpha : R)
  (baseline : bool) (w : world) (t : nat) :
  (1 <= size env)%Z -> 0 <= alpha ->
  exists st w1 st' w2 A r,
    gradient_after env alpha baseline t w = (inr st, w1)
    /\ gradient_after env alpha baseline (S t) w = (inr st', w2)
    /\ hist_A st' = hist_A st ++ [A]
    /\ hist_R st' = hist_R st ++ [r]
    /\ (A < arms env)%nat
    /\ (baseline = false -> R_ st = 0)
    /\ (R_ st <= r ->
          nth A (H st) 0 <= nth A (H st') 0
          /\ forall a, (a < arms env)%nat -> a <> A ->
               nth a (H st') 0 <= nth a (H st) 0)
    /\ (r <= R_ st ->
          nth A (H st') 0 <= nth A (H st) 0
          /\ forall a, (a < arms env)%nat -> a <> A ->
               nth a (H st) 0 <= nth a (H st') 0).
Proof.
  intros Hk Halpha. assert (Hk' : (1 <= arms env)%nat) by (unfold arms; lia).
  destruct (gradient_after_inv env alpha baseline w t Hk)
    as (st & w1 & E & Hinv).
  assert (HlH : length (H st) = arms env) by (destruct Hinv; assumption).
  destruct (gradient_body_full env alpha baseline t st w1 Hk' HlH)
    as (pi & A & Epi & Hlpi & HFpi & Hspi & _ & HA & Ebody).
  set (r := reward env (length (calls w1)) A) in *.
  assert (HpA : 0 < nth A pi 0 <= 1).
  { apply (Forall_nth_R _ pi A HFpi). lia. }
  eexists st, w1, _, _, A, r. split; [exact E|]. split.
  { rewrite gradient_after_S, (bind_ok _ _ _ _ _ E). exact Ebody. }
  cbn [H hist_A hist_R].
  split; [reflexivity|]. split; [reflexivity|]. split; [exact HA|]. split.
  { intros Hb. destruct Hinv as [_ _ _ _ _ _ HR]. now rewrite Hb in HR. }
  set (d := alpha * (r - R_ st)).
  split.
  - intros Hr. assert (Hd : 0 <= d) by (unfold d; apply Rmult_le_pos; lra).
    split.
    + rewrite nth_upd_same by (rewrite zip_with_length; lia). nra.
    + intros a Ha Hne. rewrite nth_upd_other by congruence.
      rewrite nth_zip_with by lia.
      assert (0 < nth a pi 0 <= 1) by (apply (Forall_nth_R _ pi a HFpi); lia).
      nra.
  - intros Hr. assert (Hd : d <= 0) by (unfold d; nra).
    split.
    + rewrite nth_upd_same by (rewrite zip_with_length; lia). nra.
    + intros a Ha Hne. rewrite nth_upd_other by congruence.
      rewrite nth_zip_with by lia.
      assert (0 < nth a pi 0 <= 1) by (apply (Forall_nth_R _ pi a HFpi); lia).
      nra.
Qed.

Lemma gradient_preference_direction_witness :
  exists st w1 st' w2 A r,
    gradient_after stub_env (/ 10) true 3 world0 = (inr st, w1)
    /\ gradient_after stub_env (/ 10) true 4 world0 = (inr st', w2)
    /\ hist_A st' = hist_A st ++ [A]
    /\ hist_R st' = hist_R st ++ [r]
    /\ (A < arms stub_env)%nat
    /\ (true = false -> R_ st = 0)
    /\ (R_ st <= r ->
          nth A (H st) 0 <= nth A (H st') 0
          /\ forall a, (a < arms stub_env)%nat -> a <> A ->
               nth a (H st') 0 <= nth a (H st) 0)
    /\ (r <= R_ st ->
          nth A (H st') 0 <= nth A (H st) 0
          /\ forall a, (a < arms stub_env)%nat -> a <> A ->
               nth a (H st) 0 <= nth a (H st') 0).
Proof.
  apply (gradient_preference_direction stub_env (/ 10) true world0 3).
  - simpl. lia.
  - lra.
Defined.

(** X16. If every reward of the environment lies in [[lo, hi]], the running
    baseline of [gradient_bandit] with the flag set lies in [[lo, hi]]
    after every iteration. *)
Theorem baseline_within_reward_bounds (env : BanditEnv) (alpha lo hi : R)
  (w : world) (t : nat) :
  (1 <= size env)%Z ->
  (forall n a, lo <= reward env n a <= hi) ->
  exists st w',
    gradient_after env alpha true (S t) w = (inr st, w')
    /\ lo <= R_ st <= hi.
Proof.
  intros Hk Hb.
  destruct (gradient_after_trace env alpha true w (S t) Hk)
    as (st & w' & E & [_ _ HlR _ _ _ HR] & (_ & _ & HhR)).
  exists st, w'. split; [exact E|]. rewrite HR. apply mean_bounds.
  - intros E0. rewrite E0 in HlR. discriminate.
  - rewrite HhR. now apply env_rewards_Forall.
Qed.

Lemma baseline_within_reward_bounds_witness :
  exists st w',
    gradient_after stub_env (/ 10) true (S 4) world0 = (inr st, w')
    /\ 0 <= R_ st <= 1.
Proof.
  apply (baseline_within_reward_bounds stub_env (/ 10) 0 1 world0 4).
  - simpl. lia.
  - intros n a. simpl. destruct (Nat.eqb a 0); lra.
Defined.

End GradientExtras.

(** ** Exploration in the bound loop *)

Section ExplorationExtras.

Import UCB.

(** X17. With [c > 0], from step 2 on, the bound loop of [ucb_bandit] never
    selects an action that has been tried more often than another action
    whose estimate is at least as good: if [Q[a] >= Q[A]] for the selected
    [A], then [N[A] <= N[a]]. *)
Theorem ucb_prefers_less_tried (env : BanditEnv) (c : R) (w : world)
  (t : nat) :
  (1 <= size env)%Z -> (arms env <= t)%nat -> (2 <= t)%nat -> 0 < c ->
  exists st w1 st' w2 A,
    ucb_after env c t w = (inr st, w1)
    /\ ucb_after env c (S t) w = (inr st', w2)
    /\ hist_A st' = hist_A st ++ [A]
    /\ forall a, (a < arms env)%nat ->
         nth A (Q st) 0 <= nth a (Q st) 0 ->
         nth A (N st) 0 <= nth a (N st) 0.
Proof.
  intros Hk Ht Ht2 Hc.
  destruct (ucb_after_bound env c w t Hk Ht) as (st & w1 & E & Hinv & Hpos).
  destruct (bound_body_trace env c w t st w1)
    as (A & st' & w2 & E' & _ & HhA & _ & [HA Hmax]);
    [unfold arms; lia | exact Hinv |].
  assert (HlQ : length (Q st) = arms env) by (destruct Hinv; assumption).
  assert (HlN : length (N st) = arms env) by (destruct Hinv; assumption).
  assert (Hls : length (ucb_scores c t (Q st) (N st)) = arms env).
  { rewrite ucb_scores_length; congruence. }
  assert (HL : 0 < ln (INR t)).
  { rewrite <- ln_1. apply ln_increasing; [lra|].
    apply lt_1_INR. lia. }
  exists st, w1, st', w2, A. split; [exact E|]. split.
  { now rewrite (ucb_after_S_bound env c t w Ht), (bind_ok _ _ _ _ _ E). }
  split; [exact HhA|].
  intros a Ha HQ. specialize (Hmax a ltac:(lia)).
  unfold ucb_scores in Hmax. rewrite !nth_zip_with in Hmax by lia.
  pose proof (Hpos a Ha) as Hna. pose proof (Hpos A ltac:(lia)) as HnA.
  set (L := ln (INR t)) in *.
  set (na := nth a (N st) 0) in *. set (nA := nth A (N st) 0) in *.
  assert (Hs : sqrt (L / na) <= sqrt (L / nA)) by nra.
  apply sqrt_le_0 in Hs;
    [| apply Rlt_le, Rdiv_lt_0_compat; lra
     | apply Rlt_le, Rdiv_lt_0_compat; lra].
  apply Rmult_le_compat_r with (r := na * nA) in Hs; [|nra].
  replace (L / na * (na * nA)) with (L * nA) in Hs by (field; lra).
  replace (L / nA * (na * nA)) with (L * na) in Hs by (field; lra).
  nra.
Qed.

Lemma ucb_prefers_less_tried_witness :
  exists st w1 st' w2 A,
    ucb_after stub_env 2 4 world0 = (inr st, w1)
    /\ ucb_after stub_env 2 5 world0 = (inr st', w2)
    /\ hist_A st' = hist_A st ++ [A]
    /\ forall a, (a < arms stub_env)%nat ->
         nth A (Q st) 0 <= nth a (Q st) 0 ->
         nth A (N st) 0 <= nth a (N st) 0.
Proof.
  apply (ucb_prefers_less_tried stub_env 2 world0 4).
  - simpl. lia.
  - unfold arms. simpl. lia.
  - lia.
  - lra.
Defined.

End ExplorationExtras.
